(** * tools/python/repl/repl.py: the interactive console launcher

    A shallow embedding of the launcher script and of the two standard
    library objects it instantiates and hands control to:
    [rlcompleter.Completer] (CPython, Lib/rlcompleter.py) and
    [code.InteractiveConsole] (CPython, Lib/code.py).

    Python dictionaries are insertion-ordered association lists living in a
    heap of objects, so that aliasing ([vs = globals()]) is visible.  The
    script and the library methods run in a state-and-exception monad over
    the [world]: the heap, the process-wide readline configuration and the
    log of calls made so far.

    What the model takes from its environment:
    - [sys.platform] is the parameter [platform] of the script;
    - which modules can be imported is the parameter [available]: an
      import of a module that is not raises [ModuleNotFoundError];
    - the interpreter is a parameter: its builtins, its compiler
      ([codeop.compile_command], which may raise) and, for each code
      object, what executing it does to the heap, what it prints and which
      exception it raises; an executed statement returns;
    - the attributes of [sys] that the console reads ([sys.ps1], [sys.ps2],
      [sys.stderr], [sys.excepthook]), and whether [input()] finds the
      standard streams, are read off the heap by the parameter [sys_attr],
      so that a statement can replace them;
    - the terminal delivers lines, end-of-input, an interrupt or another
      exception of [input()] once its prompt is written; the run is
      followed over the finite input that has arrived, and waits
      ([Blocked]), its prompt shown, when that input is used up with the
      loop still running.

    [interact_loop] and [repl] are the loop and the script on an
    interpreter that has every module and whose [sys] attributes keep
    their default values whatever the statements do. *)

From Stdlib Require Import ZArith Ascii.
From stdpp Require Import gmap strings list pretty.

Local Open Scope string_scope.
Local Open Scope list_scope.

(** ** Strings *)

(** [s.startswith(p)] *)
Fixpoint startswith (s p : string) : bool :=
  match p with
  | EmptyString => true
  | String c p' =>
      match s with
      | EmptyString => false
      | String d s' => Ascii.eqb d c && startswith s' p'
      end
  end.

(** [sep.join(l)] *)
Fixpoint join (sep : string) (l : list string) : string :=
  match l with
  | [] => ""
  | [x] => x
  | x :: l' => x +:+ sep +:+ join sep l'
  end.

(** [c.isspace()] on the ASCII range *)
Definition isspace (c : ascii) : bool :=
  let n := nat_of_ascii c in
  ((9 <=? n)%nat && (n <=? 13)%nat) || ((28 <=? n)%nat && (n <=? 32)%nat).

(** [not text.strip()]: the text is empty or made of white space only *)
Fixpoint blank (s : string) : bool :=
  match s with
  | EmptyString => true
  | String c s' => isspace c && blank s'
  end.

(** ["." in text] *)
Fixpoint has_dot (s : string) : bool :=
  match s with
  | EmptyString => false
  | String c s' => Ascii.eqb c "."%char || has_dot s'
  end.

(** [word in l] for a list or set of strings *)
Definition mem (word : string) (l : list string) : bool :=
  existsb (String.eqb word) l.

(** ** Values, dictionaries and the heap *)

Abbreviation loc := nat (only parsing).

Inductive value :=
  | VNone
  | VInt (n : Z)
  | VStr (s : string)
  | VModule (name : string)
  | VDict (l : loc)
      (** a reference to a dictionary object of the heap *)
  | VCallable (params : option nat).
      (** a callable; the number of parameters of its signature, [None]
          when [inspect.signature] raises [ValueError] for it *)

(** [callable(val)] *)
Definition callable (v : value) : bool :=
  match v with VCallable _ => true | _ => false end.

(** A dictionary: its items in insertion order. *)
Definition dict := list (string * value).

(** [d.get(k)] *)
Fixpoint dict_get (k : string) (d : dict) : option value :=
  match d with
  | [] => None
  | (k', v) :: d' => if String.eqb k k' then Some v else dict_get k d'
  end.

(** [d[k] = v]: an existing key keeps its position, a new one goes last *)
Fixpoint dict_set (k : string) (v : value) (d : dict) : dict :=
  match d with
  | [] => [(k, v)]
  | (k', v') :: d' =>
      if String.eqb k k' then (k', v) :: d' else (k', v') :: dict_set k v d'
  end.

(** [d.update(src)] on the items, for two distinct dictionary objects *)
Definition dict_merge (d src : dict) : dict :=
  fold_left (fun acc kv => dict_set kv.1 kv.2 acc) src d.

Abbreviation heap := (gmap loc dict) (only parsing).

(** ** Exceptions *)

Inductive exn :=
  | SystemExit (code : value)
      (** with the argument it was raised with, [None] when without *)
  | KeyboardInterrupt
  | Error (diag : string).
      (** any other exception, with the text its traceback is printed as *)

Definition is_SystemExit (e : exn) : bool :=
  match e with SystemExit _ => true | _ => false end.

(** [traceback.format_exception] *)
Definition format_exception (e : exn) : string :=
  match e with
  | SystemExit _ => "SystemExit"
  | KeyboardInterrupt => "KeyboardInterrupt"
  | Error diag => diag
  end.

(** ** The attributes of [sys] the console reads *)

(** [sys.excepthook]: the interpreter's own, or a replacement, of which
    what a call of it raises is all that reaches the console. *)
Inductive hook :=
  | DefaultHook
  | CustomHook (raises : option exn).

Record sys_state := mkSys {
  sys_ps1 : option string;
      (** [str(sys.ps1)], [None] when the attribute is missing *)
  sys_ps2 : option string;
  sys_stderr : option exn;
      (** what [sys.stderr.write(data)] raises: [None] for a stream that
          takes the data *)
  sys_excepthook : hook;
  sys_input : option string
      (** the error [input(prompt)] raises before its prompt is out, as
          [RuntimeError: input(): lost sys.stdin] when a standard stream is
          [None]: [None] when the prompt gets written *)
}.

Definition ps1 : string := ">>> ".
Definition ps2 : string := "... ".

(** The attributes as [interact] finds or sets them when it starts. *)
Definition sys_default : sys_state :=
  mkSys (Some ps1) (Some ps2) None DefaultHook None.

(** ** The world *)

(** [rlcompleter.Completer]: the instance attributes *)
Record Completer := mkCompleter {
  use_main_ns : bool;
  namespace : loc;
  matches : list string
}.

(** The calls and signals of one run, oldest first. *)
Inductive event :=
  | EImport (name : string)
  | EGlobals
  | ELocals
  | EUpdate (dst src : loc)
  | ENewCompleter (ns : loc)
  | ESetCompleter (ns : loc)
  | EPrint (s : string)
  | EParseAndBind (s : string)
  | ENewConsole (locals : loc)
  | EInteract (locals : loc)
  | EWrite (s : string)
  | EPrompt (p : string)
  | EEOFError
  | EInterrupt
  | EExec (source : string) (locals : loc)
  | EStdout (s : string)
  | ERaised (e : exn)
      (** the executed statement raised [e] *)
  | EFailed (e : exn)
      (** [e] was raised outside the executed statements: by an import,
          the compiler, [input()], a read of [sys.ps1] or [sys.ps2], a
          write to [sys.stderr] or [sys.excepthook] *)
  | EExcepthook (e : exn)
      (** the replacement of [sys.excepthook] was called for [e] *)
  | EInsertText (s : string)
  | ERedisplay.

Record world := mkWorld {
  w_heap : heap;
  rl_completer : option Completer;
  rl_bindings : list string;
  trace : list event
}.

Definition log (ev : event) (w : world) : world :=
  mkWorld (w_heap w) (rl_completer w) (rl_bindings w) (trace w ++ [ev]).

Definition with_heap (h : heap) (w : world) : world :=
  mkWorld h (rl_completer w) (rl_bindings w) (trace w).

(** ** The monad of the script *)

Inductive outcome (A : Type) :=
  | Ok (a : A) (w : world)
  | Raise (e : exn) (w : world)
  | Blocked (w : world).
      (** the run waits for input that has not arrived yet *)
Arguments Ok {A} a w.
Arguments Raise {A} e w.
Arguments Blocked {A} w.

Definition M (A : Type) := world -> outcome A.

#[global] Instance M_ret : MRet M := fun A a w => Ok a w.

#[global] Instance M_bind : MBind M := fun A B f m w =>
  match m w with
  | Ok a w' => f a w'
  | Raise e w' => Raise e w'
  | Blocked w' => Blocked w'
  end.

Definition raise {A} (e : exn) : M A := fun w => Raise e w.

(** The run stops here until more input arrives. *)
Definition block {A} : M A := fun w => Blocked w.

Definition emit (ev : event) : M unit := fun w => Ok tt (log ev w).

(** An exception raised outside the executed statements. *)
Definition fail {A} (e : exn) : M A := fun w => Raise e (log (EFailed e) w).

(** [try: body except KeyboardInterrupt: handler] *)
Definition except_KeyboardInterrupt {A} (body handler : M A) : M A := fun w =>
  match body w with
  | Raise KeyboardInterrupt w' => handler w'
  | r => r
  end.

Definition final {A} (r : outcome A) : world :=
  match r with Ok _ w | Raise _ w | Blocked w => w end.

(** ** Names, dictionaries and readline: the primitives the script calls *)

(** The frame that executes the script: [globals()] and [locals()].  For a
    script run as a module the two are one and the same dictionary. *)
Record frame := mkFrame { f_globals : loc; f_locals : loc }.

Definition module_frame (g : loc) : frame := mkFrame g g.

Definition nl : string := String (ascii_of_nat 10) "".
Definition tab : string := String (ascii_of_nat 9) "".
Definition dq : string := String (ascii_of_nat 34) "".

Definition get_dict (l : loc) : M dict := fun w =>
  match w_heap w !! l with
  | Some d => Ok d w
  | None => Raise (Error "SystemError: no such object") w
  end.

Definition put_dict (l : loc) (d : dict) : M unit := fun w =>
  Ok tt (with_heap (<[l:=d]> (w_heap w)) w).

(** [dst.update(src)]; CPython returns at once when both are one object *)
Definition update (dst src : value) : M unit :=
  match dst, src with
  | VDict a, VDict b =>
      emit (EUpdate a b);;
      if decide (a = b) then mret tt
      else d ← get_dict a; s ← get_dict b; put_dict a (dict_merge d s)
  | _, _ => raise (Error "TypeError: not a dictionary")
  end.

Definition print (s : string) : M unit := emit (EPrint s).

(** [readline.set_completer(c.complete)] *)
Definition set_completer (c : Completer) : M unit := fun w =>
  Ok tt (log (ESetCompleter (namespace c))
           (mkWorld (w_heap w) (Some c) (rl_bindings w) (trace w))).

(** [readline.parse_and_bind(s)] *)
Definition parse_and_bind (s : string) : M unit := fun w =>
  Ok tt (log (EParseAndBind s)
           (mkWorld (w_heap w) (rl_completer w) (rl_bindings w ++ [s]) (trace w))).

(** What [input(prompt)] meets once it has written the prompt. *)
Inductive input :=
  | Line (s : string)
  | EOF
  | Interrupt
  | Failure (e : exn).
      (** an exception other than [EOFError] and [KeyboardInterrupt], as
          the read of a closed standard input gives *)

(** The result of [exec(code, locals)]: the heap it leaves, what it wrote
    to standard output and the exception it raised, if any. *)
Record executed := mkExecuted {
  x_heap : heap;
  x_stdout : list string;
  x_exn : option exn
}.

(** A code object, as what executing it in a namespace does. *)
Definition code := loc -> heap -> executed.

(** The result of [codeop.compile_command(source)]. *)
Inductive compiled :=
  | Incomplete
  | Invalid (diag : string)
      (** it raised [OverflowError], [SyntaxError] or [ValueError] *)
  | Code (c : code)
  | Crash (e : exn).
      (** it raised another exception, as [RecursionError] or
          [MemoryError] on a deeply nested source *)

(** [code.InteractiveConsole]: the instance attributes *)
Record InteractiveConsole := mkConsole {
  locals : loc;
  filename : string;
  buffer : list string
}.

(** The exit message of [interact]. *)
Definition exitmsg : string := "now exiting InteractiveConsole..." +:+ nl.

(** The modules the script imports, in the order of its lines 1 to 4. *)
Definition modules : list string := ["code"; "readline"; "rlcompleter"; "sys"].

Definition ModuleNotFoundError (name : string) : exn :=
  Error ("ModuleNotFoundError: No module named '" +:+ name +:+ "'").

Section Python.

(** The interpreter the script runs on. *)
Variable available : string -> bool.
Variable sys_attr : heap -> sys_state.
Variable builtins : dict.
Variable main_ns : loc.
Variable sys_version : string.
Variable compile_command : string -> compiled.
Variable attr_matches : heap -> loc -> string -> list string.

Variable fr : frame.

(** [NAME = v] at the top level of the script *)
Definition store_name (name : string) (v : value) : M unit :=
  d ← get_dict (f_locals fr); put_dict (f_locals fr) (dict_set name v d).

(** A name read at the top level: locals, then globals, then builtins *)
Definition load_name (name : string) : M value :=
  l ← get_dict (f_locals fr);
  match dict_get name l with
  | Some v => mret v
  | None =>
      g ← get_dict (f_globals fr);
      match dict_get name g with
      | Some v => mret v
      | None =>
          match dict_get name builtins with
          | Some v => mret v
          | None => raise (Error ("NameError: name '" +:+ name +:+ "' is not defined"))
          end
      end
  end.

(** [import name] *)
Definition import (name : string) : M unit :=
  emit (EImport name);;
  if available name then store_name name (VModule name)
  else fail (ModuleNotFoundError name).

Definition globals : M value := emit EGlobals;; mret (VDict (f_globals fr)).
Definition locals_ : M value := emit ELocals;; mret (VDict (f_locals fr)).

(** [rlcompleter.Completer(namespace)]: a namespace given is kept by
    reference, none given means [__main__.__dict__] at completion time *)
Definition Completer_init (ns : value) : M Completer :=
  match ns with
  | VDict l => emit (ENewCompleter l);; mret (mkCompleter false l [])
  | VNone => emit (ENewCompleter main_ns);; mret (mkCompleter true main_ns [])
  | _ => raise (Error "TypeError: namespace must be a dictionary")
  end.

(** [code.InteractiveConsole(locals)]; without an argument the console
    gets a dictionary of its own *)
Definition InteractiveConsole_init (ns : value) : M InteractiveConsole :=
  match ns with
  | VDict l => emit (ENewConsole l);; mret (mkConsole l "<console>" [])
  | VNone => fun w =>
      let l := fresh (dom (w_heap w)) in
      (put_dict l [("__name__", VStr "__console__"); ("__doc__", VNone)];;
       emit (ENewConsole l);; mret (mkConsole l "<console>" [])) w
  | _ => raise (Error "TypeError: locals must be a dictionary")
  end.

(** *** rlcompleter.Completer *)

(** [keyword.kwlist] and [keyword.softkwlist] *)
Definition kwlist : list string :=
  ["False"; "None"; "True"; "and"; "as"; "assert"; "async"; "await";
   "break"; "class"; "continue"; "def"; "del"; "elif"; "else"; "except";
   "finally"; "for"; "from"; "global"; "if"; "import"; "in"; "is";
   "lambda"; "nonlocal"; "not"; "or"; "pass"; "raise"; "return"; "try";
   "while"; "with"; "yield"].
Definition softkwlist : list string := ["_"; "case"; "match"].

(** [word[:n] == text] with [n = len(text)] *)
Definition matches_text (text word : string) : bool :=
  String.eqb (String.substring 0 (String.length text) word) text.

Definition callable_postfix (val : value) (word : string) : string :=
  if callable val then
    let word := word +:+ "(" in
    match val with
    | VCallable (Some O) => word +:+ ")"
    | _ => word
    end
  else word.

(** The body of the loop over the keywords; the accumulator is
    [(matches, seen)]. *)
Definition keyword_step (text : string)
    (acc : list string * list string) (word : string)
    : list string * list string :=
  if matches_text text word then
    let word' :=
      if mem word ["finally"; "try"] then word +:+ ":"
      else if mem word ["False"; "None"; "True"; "break"; "continue";
                        "pass"; "else"; "_"] then word
      else word +:+ " " in
    (acc.1 ++ [word'], word :: acc.2)
  else acc.

(** The body of the loop over the items of a namespace. *)
Definition nspace_step (text : string)
    (acc : list string * list string) (item : string * value)
    : list string * list string :=
  if matches_text text item.1 && negb (mem item.1 acc.2) then
    (acc.1 ++ [callable_postfix item.2 item.1], item.1 :: acc.2)
  else acc.

Definition global_matches (nspace : dict) (text : string) : list string :=
  let acc := fold_left (keyword_step text) (kwlist ++ softkwlist)
               ([], ["__builtins__"]) in
  let acc := fold_left (nspace_step text) nspace acc in
  let acc := fold_left (nspace_step text) builtins acc in
  acc.1.

(** The assignment to [self.matches] made when [state == 0]. *)
Definition compute_matches (self : Completer) (text : string) : M Completer :=
  if has_dot text then fun w =>
    Ok (mkCompleter (use_main_ns self) (namespace self)
          (attr_matches (w_heap w) (namespace self) text)) w
  else
    ns ← get_dict (namespace self);
    mret (mkCompleter (use_main_ns self) (namespace self)
            (global_matches ns text)).

(** [Completer.complete(text, state)], the callback readline calls with
    [state] 0, 1, 2, ... until it answers [None] *)
Definition complete (self : Completer) (text : string) (state : nat)
    : M (option string * Completer) :=
  let self :=
    if use_main_ns self then mkCompleter true main_ns (matches self)
    else self in
  if blank text then
    match state with
    | O => emit (EInsertText tab);; emit ERedisplay;; mret (Some "", self)
    | S _ => mret (None, self)
    end
  else
    self ← match state return M Completer with
           | O => compute_matches self text
           | S _ => mret self
           end;
    mret (matches self !! state, self).


(** *** code.InteractiveConsole *)

(** [InteractiveInterpreter.write]: [sys.stderr.write(data)] *)
Definition write (data : string) : M unit := fun w =>
  match sys_stderr (sys_attr (w_heap w)) with
  | None => emit (EWrite data) w
  | Some e => fail e w
  end.

(** What [showsyntaxerror] and [showtraceback] end with: the text goes to
    [write] when [sys.excepthook] is the interpreter's own, the hook is
    called otherwise. *)
Definition show (e : exn) (text : string) : M unit := fun w =>
  match sys_excepthook (sys_attr (w_heap w)) with
  | DefaultHook => write text w
  | CustomHook raises =>
      (emit (EExcepthook e);;
       match raises with
       | None => mret tt
       | Some e' => fail e'
       end) w
  end.

Definition showsyntaxerror (diag : string) : M unit := show (Error diag) diag.

Definition showtraceback (e : exn) : M unit := show e (format_exception e).

Definition resetbuffer (self : InteractiveConsole) : InteractiveConsole :=
  mkConsole (locals self) (filename self) [].

(** [InteractiveInterpreter.runcode]: every exception of the executed
    code is caught and shown, except [SystemExit], which is raised again *)
Definition runcode (self : InteractiveConsole) (source : string) (c : code)
    : M unit := fun w =>
  let x := c (locals self) (w_heap w) in
  let w' := mkWorld (x_heap x) (rl_completer w) (rl_bindings w)
              (trace w ++ EExec source (locals self) :: map EStdout (x_stdout x)) in
  match x_exn x with
  | None => Ok tt w'
  | Some e =>
      (emit (ERaised e);;
       if is_SystemExit e then raise e else showtraceback e) w'
  end.

(** [InteractiveInterpreter.runsource]: [true] when more input is needed;
    an exception of the compiler other than the three it catches goes on *)
Definition runsource (self : InteractiveConsole) (source : string) : M bool :=
  match compile_command source with
  | Invalid diag => showsyntaxerror diag;; mret false
  | Incomplete => mret true
  | Code c => runcode self source c;; mret false
  | Crash e => fail e
  end.

(** [InteractiveConsole.push] *)
Definition push (self : InteractiveConsole) (line : string)
    : M (bool * InteractiveConsole) :=
  let self := mkConsole (locals self) (filename self) (buffer self ++ [line]) in
  let source := join nl (buffer self) in
  runsource self source ≫= λ more : bool,
    mret (more, if more then self else resetbuffer self).

(** [prompt = sys.ps2 if more else sys.ps1] *)
Definition prompt (more : bool) : M string := fun w =>
  match (if more then sys_ps2 else sys_ps1) (sys_attr (w_heap w)) with
  | Some p => Ok p w
  | None =>
      fail (Error ("AttributeError: module 'sys' has no attribute '"
                   +:+ (if more then "ps2" else "ps1") +:+ "'")) w
  end.

(** [input(prompt)] up to its wait: the prompt is written, unless a
    standard stream is lost. *)
Definition show_prompt (p : string) : M unit := fun w =>
  match sys_input (sys_attr (w_heap w)) with
  | None => emit (EPrompt p) w
  | Some diag => fail (Error diag) w
  end.

(** The head of a turn: the prompt is chosen and shown. *)
Definition ask (more : bool) : M unit :=
  p ← prompt more; show_prompt p.

(** The rest of a turn of the [while 1:] of [interact], from the input
    that arrives at its prompt; [None] is its [break]. *)
Definition turn (st : bool * InteractiveConsole) (i : input)
    : M (option (bool * InteractiveConsole)) :=
  except_KeyboardInterrupt
    match i return M (option (bool * InteractiveConsole)) with
    | Line line => r ← push st.2 line; mret (Some r)
    | EOF => emit EEOFError;; write nl;; mret None
    | Interrupt => emit EInterrupt;; raise KeyboardInterrupt
    | Failure e => fail e
    end
    (write (nl +:+ "KeyboardInterrupt" +:+ nl);;
     mret (Some (false, resetbuffer st.2))).

(** The [while 1:] of [interact] over the input that has arrived: each
    turn writes its prompt and then takes what arrives; [None] when the
    loop was left, the state it waits in, its prompt shown, otherwise. *)
Fixpoint interact_while (inp : list input) (st : bool * InteractiveConsole)
    : M (option (bool * InteractiveConsole)) :=
  ask st.1;;
  match inp return M (option (bool * InteractiveConsole)) with
  | [] => mret (Some st)
  | i :: rest =>
      r ← turn st i;
      match r return M (option (bool * InteractiveConsole)) with
      | None => mret None
      | Some st' => interact_while rest st'
      end
  end.

Definition cprt : string :=
  "Type " +:+ dq +:+ "help" +:+ dq +:+ ", " +:+ dq +:+ "copyright" +:+ dq
  +:+ ", " +:+ dq +:+ "credits" +:+ dq +:+ " or " +:+ dq +:+ "license" +:+ dq
  +:+ " for more information.".

(** The banner of [interact]. *)
Definition banner (platform : string) : string :=
  "Python " +:+ sys_version +:+ " on " +:+ platform +:+ nl +:+ cprt
  +:+ nl +:+ "(InteractiveConsole)" +:+ nl.

(** [InteractiveConsole.interact()].  It first gives [sys.ps1] and
    [sys.ps2] their default values where they are missing; [sys_attr]
    reads the attributes from then on. *)
Definition interact (platform : string) (self : InteractiveConsole)
    (inp : list input) : M unit :=
  emit (EInteract (locals self));;
  write (banner platform);;
  r ← interact_while inp (false, self);
  match r return M unit with
  | Some _ => block
  | None => write exitmsg
  end.

(** *** The script *)

(** Lines 1 to 16: the imports, the namespace, the completer and the
    key binding of the platform. *)
Definition configure (platform : string) : M unit :=
  import "code";;
  import "readline";;
  import "rlcompleter";;
  import "sys";;
  g ← globals; store_name "vs" g;;
  vs ← load_name "vs"; l ← locals_; update vs l;;
  vs ← load_name "vs"; c ← Completer_init vs; set_completer c;;
  if startswith platform "linux" then
    print "use linux...";;
    parse_and_bind "tab: complete"
  else if String.eqb platform "darwin" then
    print "use darwin...";;
    parse_and_bind "bind ^I rl_complete"
  else mret tt.

(** The whole script, on the input that arrives at its prompt. *)
Definition launch (platform : string) (inp : list input) : M unit :=
  configure platform;;
  vs ← load_name "vs"; console ← InteractiveConsole_init vs;
  interact platform console inp.

End Python.

(** Every module can be imported. *)
Definition all_modules : string -> bool := fun _ => true.

(** The attributes of [sys] keep their default values. *)
Definition sys_intact : heap -> sys_state := fun _ => sys_default.

(** The loop of [interact] and the script on an interpreter that has
    every module and whose [sys] attributes no statement touches. *)
Definition interact_loop (compile_command : string -> compiled)
    : list input -> bool * InteractiveConsole
      -> M (option (bool * InteractiveConsole)) :=
  interact_while sys_intact compile_command.

Definition repl (builtins : dict) (main_ns : loc) (sys_version : string)
    (compile_command : string -> compiled) (fr : frame)
    : string -> list input -> M unit :=
  launch all_modules sys_intact builtins main_ns sys_version compile_command fr.

(** The status [sys.exit] hands to the system for the argument of a
    [SystemExit]: 0 for [None], 1 for an object that is not an integer
    (which is printed), and for an integer the low eight bits of its value
    as a C [long], -1 when it does not fit (POSIX, 64-bit [long]). *)
Definition exit_code (code : value) : Z :=
  match code with
  | VNone => 0
  | VInt n =>
      if ((- 2 ^ 63 <=? n) && (n <? 2 ^ 63))%Z then (n mod 256)%Z else 255%Z
  | _ => 1
  end.

(** The exit status of the process, once the script has ended: an
    exception that leaves the script is reported by the interpreter, 130
    standing for the death by [SIGINT] of an uncaught
    [KeyboardInterrupt]. *)
Definition exit_status (r : outcome unit) : option Z :=
  match r with
  | Ok _ _ => Some 0%Z
  | Raise (SystemExit code) _ => Some (exit_code code)
  | Raise KeyboardInterrupt _ => Some 130%Z
  | Raise (Error _) _ => Some 1%Z
  | Blocked _ => None
  end.

(** The world the interpreter starts the script in: the dictionaries of
    its frame in a heap ([g0] for the globals, [l0] for the locals; in a
    module frame the two are one object, which holds [l0]), readline not
    configured, nothing logged. *)
Definition boot (h0 : heap) (fr : frame) (g0 l0 : dict) : world :=
  mkWorld (<[f_locals fr := l0]> (<[f_globals fr := g0]> h0)) None [] [].

(** ** What a run is observed by *)

(** The dictionary of the locals once the imports and [vs] are bound. *)
Definition bound_locals (g : loc) (l0 : dict) : dict :=
  dict_set "vs" (VDict g)
    (dict_set "sys" (VModule "sys")
       (dict_set "rlcompleter" (VModule "rlcompleter")
          (dict_set "readline" (VModule "readline")
             (dict_set "code" (VModule "code") l0)))).

(** The dictionary of the globals once line 9 has merged the locals in. *)
Definition start_namespace (fr : frame) (g0 l0 : dict) : dict :=
  if decide (f_globals fr = f_locals fr) then bound_locals (f_globals fr) l0
  else dict_merge g0 (bound_locals (f_globals fr) l0).

(** The messages and the key binding of the platform, as logged. *)
Definition platform_events (platform : string) : list event :=
  if startswith platform "linux" then
    [EPrint "use linux..."; EParseAndBind "tab: complete"]
  else if String.eqb platform "darwin" then
    [EPrint "use darwin..."; EParseAndBind "bind ^I rl_complete"]
  else [].

Definition platform_bindings (platform : string) : list string :=
  if startswith platform "linux" then ["tab: complete"]
  else if String.eqb platform "darwin" then ["bind ^I rl_complete"]
  else [].

(** The events of lines 1 to 10, the same on every platform. *)
Definition setup_events (fr : frame) : list event :=
  [EImport "code"; EImport "readline"; EImport "rlcompleter"; EImport "sys";
   EGlobals; ELocals; EUpdate (f_globals fr) (f_locals fr);
   ENewCompleter (f_globals fr); ESetCompleter (f_globals fr)].

(** The world once lines 1 to 16 have run. *)
Definition configured (h0 : heap) (fr : frame) (g0 l0 : dict)
    (platform : string) : world :=
  mkWorld
    (<[f_globals fr := start_namespace fr g0 l0]>
       (<[f_locals fr := bound_locals (f_globals fr) l0]>
          (<[f_globals fr := g0]> h0)))
    (Some (mkCompleter false (f_globals fr) []))
    (platform_bindings platform)
    (setup_events fr ++ platform_events platform).

(** The world in which [interact] is called. *)
Definition started (h0 : heap) (fr : frame) (g0 l0 : dict)
    (platform : string) : world :=
  log (EInteract (f_globals fr))
    (log (ENewConsole (f_globals fr)) (configured h0 fr g0 l0 platform)).

(** The world in which the loop of the console starts, the banner written. *)
Definition entered (sys_version : string) (h0 : heap) (fr : frame)
    (g0 l0 : dict) (platform : string) : world :=
  log (EWrite (banner sys_version platform)) (started h0 fr g0 l0 platform).

(** The first of the modules of the script that cannot be imported. *)
Definition first_missing (available : string -> bool) : option string :=
  List.find (fun m => negb (available m)) modules.

(** The events the console produces while it serves a namespace [ns]. *)
Definition console_event (ns : loc) (ev : event) : bool :=
  match ev with
  | EWrite _ | EPrompt _ | EEOFError | EInterrupt | EStdout _ | ERaised _
  | EFailed _ | EExcepthook _ => true
  | EExec _ l => Nat.eqb l ns
  | _ => false
  end.

(** A statement raised [SystemExit]. *)
Definition is_exit (ev : event) : bool :=
  match ev with
  | ERaised e => is_SystemExit e
  | _ => false
  end.

(** The launcher's own output and key binding calls. *)
Definition is_binding_event (ev : event) : bool :=
  match ev with
  | EPrint _ | EParseAndBind _ => true
  | _ => false
  end.

(** The console is entered. *)
Definition is_interact (ev : event) : bool :=
  match ev with
  | EInteract _ => true
  | _ => false
  end.

(** What the launcher itself printed on standard output. *)
Definition printed (tr : list event) : list string :=
  omap (λ ev, match ev with EPrint s => Some s | _ => None end) tr.

(** The prompts shown. *)
Definition prompts (tr : list event) : list string :=
  omap (λ ev, match ev with EPrompt s => Some s | _ => None end) tr.

(** The sources executed, oldest first. *)
Definition executed_sources (tr : list event) : list string :=
  omap (λ ev, match ev with EExec source _ => Some source | _ => None end) tr.

(** [w'] is [w] after the events [evs], the readline configuration kept. *)
Definition extends (w w' : world) (evs : list event) : Prop :=
  rl_completer w' = rl_completer w ∧
  rl_bindings w' = rl_bindings w ∧
  trace w' = trace w ++ evs.

(** What the console adds to the world: events of its own for the
    namespace it serves, and a change of the heap only where a statement
    was executed. *)
Definition console_step (ns : loc) (w w' : world) (evs : list event) : Prop :=
  extends w w' evs ∧
  forallb (console_event ns) evs = true ∧
  (executed_sources evs = [] → w_heap w' = w_heap w).

(** How an exception that nothing caught shows at the end of the log: it
    was raised outside the executed statements, or it is the [SystemExit]
    of a statement. *)
Definition escaped (e : exn) (evs : list event) : Prop :=
  last evs = Some (EFailed e) ∨
  (last evs = Some (ERaised e) ∧ is_SystemExit e = true).

(** What holds of a step of the console that shows no prompt; a step
    inside the [try] of the loop may also raise the [KeyboardInterrupt]
    that the loop catches. *)
Definition step_post {A} (inside : bool) (ns : loc) (w : world)
    (r : outcome A) (Q : A → Prop) : Prop :=
  ∃ evs, console_step ns w (final r) evs ∧ prompts evs = [] ∧
    match r with
    | Ok a _ => Q a
    | Raise e _ => escaped e evs ∨ (inside = true ∧ e = KeyboardInterrupt)
    | Blocked _ => False
    end.

(** What one executed statement adds to the world when its exception, if
    any, is a [SystemExit] or has its traceback written. *)
Definition ran (ns : loc) (source : string) (c : code) (w : world) : world :=
  let x := c ns (w_heap w) in
  mkWorld (x_heap x) (rl_completer w) (rl_bindings w)
    (trace w ++ EExec source ns :: map EStdout (x_stdout x)
             ++ match x_exn x with
                | None => []
                | Some e =>
                    ERaised e ::
                    (if is_SystemExit e then []
                     else [EWrite (format_exception e)])
                end).

(** The prompt of the next turn, when [sys.ps1] and [sys.ps2] have their
    default values. *)
Definition prompt_of (st : bool * InteractiveConsole) : string :=
  if st.1 then ps2 else ps1.

(** The traceback of an exception is written as it is by default. *)
Definition displays (s : sys_state) : Prop :=
  sys_stderr s = None ∧ sys_excepthook s = DefaultHook.

(** What holds of the loop, whatever arrives at the prompt: it only adds
    console events for its namespace, leaves readline alone, shows at most
    one prompt for each input and one more, and its result tells how far
    it got. *)
Definition loop_post (ns : loc) (inp : list input) (w : world)
    (r : outcome (option (bool * InteractiveConsole))) : Prop :=
  ∃ evs, console_step ns w (final r) evs ∧
    (length (prompts evs) ≤ S (length inp))%nat ∧
    match r with
    | Ok (Some st') _ =>
        locals st'.2 = ns ∧ (EOF ∉ inp) ∧
        length (prompts evs) = S (length inp) ∧
        ∃ p, last evs = Some (EPrompt p)
    | Ok None _ => (EOF ∈ inp)
    | Raise e _ => escaped e evs
    | Blocked _ => False
    end.

(** How [interact] ends, from how its loop ended, when the exit message
    can be written. *)
Definition finish (r : outcome (option (bool * InteractiveConsole)))
    : outcome unit :=
  match r with
  | Ok None w' => Ok tt (log (EWrite exitmsg) w')
  | Ok (Some _) w' => Blocked w'
  | Raise e w' => Raise e w'
  | Blocked w' => Blocked w'
  end.

(** The console the script builds. *)
Definition console (fr : frame) : InteractiveConsole :=
  mkConsole (f_globals fr) "<console>" [].

(** What [name] resolves to in the namespace at [ns]. *)
Definition resolves (h : heap) (ns : loc) (name : string) : option value :=
  h !! ns ≫= dict_get name.

(** The run has ended: the script returned or an exception left it. *)
Definition terminated {A} (r : outcome A) : Prop :=
  match r with
  | Blocked _ => False
  | _ => True
  end.

(** What holds at the end of every run of the script whose imports
    succeed. *)
Definition run_post (h0 : heap) (fr : frame) (g0 l0 : dict)
    (platform : string) (inp : list input) (r : outcome unit) : Prop :=
  ∃ evs,
    rl_completer (final r) = Some (mkCompleter false (f_globals fr) []) ∧
    rl_bindings (final r) = platform_bindings platform ∧
    trace (final r) = trace (started h0 fr g0 l0 platform) ++ evs ∧
    forallb (console_event (f_globals fr)) evs = true ∧
    (executed_sources evs = [] →
     w_heap (final r) = w_heap (started h0 fr g0 l0 platform)) ∧
    (length (prompts evs) ≤ S (length inp))%nat ∧
    match r with
    | Ok _ _ => (EOF ∈ inp) ∧ last evs = Some (EWrite exitmsg)
    | Raise e _ => escaped e evs
    | Blocked _ =>
        (EOF ∉ inp) ∧ length (prompts evs) = S (length inp) ∧
        ∃ p, last evs = Some (EPrompt p)
    end.

(** The statement that a turn executes, if any: the source that the line
    completes and its code object. *)
Definition statement_of (compile_command : string → compiled)
    (st : bool * InteractiveConsole) (i : input) : option (string * code) :=
  match i with
  | Line line =>
      let source := join nl (buffer st.2 ++ [line]) in
      match compile_command source with
      | Code c => Some (source, c)
      | _ => None
      end
  | _ => None
  end.

(** The statements the loop executes over the input [inp], oldest first,
    each with the heap it is executed on. *)
Fixpoint executions (sys_attr : heap → sys_state)
    (compile_command : string → compiled)
    (inp : list input) (st : bool * InteractiveConsole) (w : world)
    : list (string * code * heap) :=
  match inp with
  | [] => []
  | i :: rest =>
      match ask sys_attr st.1 w with
      | Ok _ w0 =>
          match statement_of compile_command st i with
          | Some (source, c) => [(source, c, w_heap w0)]
          | None => []
          end
          ++ match turn sys_attr compile_command st i w0 with
             | Ok (Some st') w' => executions sys_attr compile_command rest st' w'
             | _ => []
             end
      | _ => []
      end
  end.

Section Observations.

Context (builtins : dict) (main_ns : loc) (sys_version : string).
Context (compile_command : string → compiled).
Context (h0 : heap) (fr : frame) (g0 l0 : dict).

(** The world at the end of the run on [platform], once the input [inp]
    has been served. *)
Definition at_end (platform : string) (inp : list input) : world :=
  final (repl builtins main_ns sys_version compile_command fr platform inp
           (boot h0 fr g0 l0)).

End Observations.

(** ** A few Python statements, to run the console on *)

Module Demo.

(** [name = v] *)
Definition assign (name : string) (v : value) : code := fun ns h =>
  match h !! ns with
  | Some d => mkExecuted (<[ns := dict_set name v d]> h) [] None
  | None => mkExecuted h [] (Some (Error "SystemError: no such object"))
  end.

(** [repr(v)] *)
Definition repr (v : value) : string :=
  match v with
  | VNone => "None"
  | VInt n => pretty n
  | VStr s => "'" +:+ s +:+ "'"
  | VModule name => "<module '" +:+ name +:+ "'>"
  | VDict _ => "{...}"
  | VCallable _ => "<function>"
  end.

(** The expression statement [name]: its value is displayed *)
Definition name_expr (name : string) : code := fun ns h =>
  match h !! ns ≫= dict_get name with
  | Some v => mkExecuted h [repr v] None
  | None =>
      mkExecuted h []
        (Some (Error ("NameError: name '" +:+ name +:+ "' is not defined")))
  end.

(** [raise SystemExit(status)] *)
Definition exit (status : Z) : code := fun ns h =>
  mkExecuted h [] (Some (SystemExit (VInt status))).

Definition compile_command (source : string) : compiled :=
  if String.eqb source "x = 5" then Code (assign "x" (VInt 5))
  else if String.eqb source "x = 6" then Code (assign "x" (VInt 6))
  else if String.eqb source "x" then Code (name_expr "x")
  else if String.eqb source "y" then Code (name_expr "y")
  else if String.eqb source "raise SystemExit(3)" then Code (exit 3)
  else if String.eqb source "if x:" then Incomplete
  else Invalid "SyntaxError: invalid syntax".

Definition builtins : dict :=
  [("compile", VCallable None); ("print", VCallable None);
   ("__build_class__", VCallable None)].

Definition attr_matches (h : heap) (ns : loc) (text : string) : list string := [].

Definition g0 : dict := [("__name__", VStr "__main__"); ("__builtins__", VModule "builtins")].

Definition run (platform : string) (inp : list input) : outcome unit :=
  repl builtins 0 "3.11" compile_command (module_frame 0) platform inp
    (boot ∅ (module_frame 0) g0 g0).

(** The compiler above, with one compound statement more. *)
Definition compile_block (source : string) : compiled :=
  if String.eqb source ("if x:" +:+ nl +:+ "  x = 6") then
    Code (assign "x" (VInt 6))
  else compile_command source.

(** The namespace the console starts with. *)
Definition ns : dict :=
  [("__name__", VStr "__main__"); ("__builtins__", VModule "builtins");
   ("code", VModule "code"); ("readline", VModule "readline");
   ("rlcompleter", VModule "rlcompleter"); ("sys", VModule "sys");
   ("vs", VDict 0)].

(** *** Statements that reach the attributes of [sys] *)

(** The dictionary of the module [sys] is the object at this location; a
    heap without it stands for the attributes as [interact] sets them. *)
Definition sys_loc : loc := 1%nat.

Definition sys0 : dict :=
  [("ps1", VStr ps1); ("ps2", VStr ps2); ("stdin", VStr "<stdin>");
   ("stdout", VStr "<stdout>"); ("stderr", VStr "<stderr>");
   ("excepthook", VStr "<built-in function excepthook>")].

Definition sys_dict (h : heap) : dict := default sys0 (h !! sys_loc).

Definition prompt_str (v : option value) : option string :=
  match v with
  | Some (VStr s) => Some s
  | Some v => Some (repr v)
  | None => None
  end.

(** [input] looks for [sys.stdin], [sys.stdout] and [sys.stderr], in this
    order, and gives up at the first that is missing or [None]. *)
Definition lost (d : dict) : option string :=
  match
    List.find (fun k => match dict_get k d with
                        | Some VNone | None => true
                        | Some _ => false
                        end) ["stdin"; "stdout"; "stderr"]
  with
  | Some k => Some ("RuntimeError: input(): lost sys." +:+ k)
  | None => None
  end.

(** [sys.stderr = None] makes [write] raise [AttributeError]; a hook that
    takes no argument, as [locals], raises [TypeError] when it is called
    with the three of an exception. *)
Definition sys_attr (h : heap) : sys_state :=
  let d := sys_dict h in
  mkSys (prompt_str (dict_get "ps1" d)) (prompt_str (dict_get "ps2" d))
    match dict_get "stderr" d with
    | Some VNone =>
        Some (Error "AttributeError: 'NoneType' object has no attribute 'write'")
    | Some _ => None
    | None => Some (Error "AttributeError: module 'sys' has no attribute 'stderr'")
    end
    match dict_get "excepthook" d with
    | Some (VCallable (Some O)) =>
        CustomHook (Some (Error "TypeError: locals() takes no arguments (3 given)"))
    | Some (VCallable _) => CustomHook None
    | _ => DefaultHook
    end
    (lost d).

Definition NameError_y : exn := Error "NameError: name 'y' is not defined".

(** [sys.NAME = v; y], where [y] is not defined *)
Definition set_sys_then_y (name : string) (v : value) : code := fun ns h =>
  mkExecuted (<[sys_loc := dict_set name v (sys_dict h)]> h) []
    (Some NameError_y).

(** [del sys.NAME; y] *)
Definition del_sys_then_y (name : string) : code := fun ns h =>
  mkExecuted
    (<[sys_loc := List.filter (fun kv => negb (String.eqb kv.1 name)) (sys_dict h)]> h)
    [] (Some NameError_y).

(** A unary minus, [n] times over, before [s] *)
Fixpoint minus (n : nat) (s : string) : string :=
  match n with
  | O => s
  | S n' => String "-"%char (minus n' s)
  end.

(** A source nested too deep for the compiler *)
Definition deep : string := minus 5000 "1".

Definition compile_sys (source : string) : compiled :=
  if String.eqb source "sys.stderr = None; y" then
    Code (set_sys_then_y "stderr" VNone)
  else if String.eqb source "sys.stdin = None; y" then
    Code (set_sys_then_y "stdin" VNone)
  else if String.eqb source "sys.excepthook = locals; y" then
    Code (set_sys_then_y "excepthook" (VCallable (Some O)))
  else if String.eqb source "del sys.ps1; y" then
    Code (del_sys_then_y "ps1")
  else if String.eqb source deep then
    Crash (Error "RecursionError: maximum recursion depth exceeded during compilation")
  else compile_command source.

(** The script on an interpreter that lacks the modules [missing]. *)
Definition launch_without (missing : list string) (platform : string)
    (inp : list input) : outcome unit :=
  launch (fun m => negb (mem m missing)) sys_attr builtins 0 "3.11"
    compile_sys (module_frame 0) platform inp
    (boot ∅ (module_frame 0) g0 g0).

(** The heap of an interpreter started without one of its standard
    streams, as under [pythonw]: [sys.NAME] is [None] from the start. *)
Definition without_stream (name : string) : heap :=
  {[ sys_loc := dict_set name VNone sys0 ]}.

Definition launch_without_stream (name platform : string) (inp : list input)
    : outcome unit :=
  launch all_modules sys_attr builtins 0 "3.11" compile_sys (module_frame 0)
    platform inp (boot (without_stream name) (module_frame 0) g0 g0).

End Demo.

(** * Properties *)

(** ** Dictionaries *)

Lemma dict_get_set_eq k v d : dict_get k (dict_set k v d) = Some v.
Proof.
  induction d as [|[k' v'] d IH]; simpl.
  - by rewrite String.eqb_refl.
  - destruct (String.eqb k k') eqn:E; simpl; rewrite E; [done | exact IH].
Qed.

Lemma dict_get_set_ne k k' v d :
  k ≠ k' → dict_get k (dict_set k' v d) = dict_get k d.
Proof.
  intros Hne. induction d as [|[k2 v2] d IH]; simpl.
  - destruct (String.eqb_spec k k'); [done | done].
  - destruct (String.eqb_spec k' k2) as [->|Hk]; simpl.
    + destruct (String.eqb_spec k k2); [done | done].
    + destruct (String.eqb_spec k k2); [done | exact IH].
Qed.

Lemma dict_get_set k k' v d :
  dict_get k (dict_set k' v d) = if decide (k = k') then Some v else dict_get k d.
Proof.
  case_decide as E; [subst; apply dict_get_set_eq | by apply dict_get_set_ne].
Qed.

Lemma dict_get_None k d : dict_get k d = None ↔ k ∉ d.*1.
Proof.
  induction d as [|[k' v'] d IH]; simpl.
  - split; [intros _; apply not_elem_of_nil | done].
  - rewrite not_elem_of_cons. destruct (String.eqb_spec k k') as [->|Hne].
    + split; [done | intros [? _]; done].
    + rewrite IH. tauto.
Qed.

Lemma dict_get_Some k v d : dict_get k d = Some v → (k, v) ∈ d.
Proof.
  induction d as [|[k' v'] d IH]; simpl; [done|].
  destruct (String.eqb_spec k k') as [->|Hne].
  - intros [= ->]. left.
  - intros H. right. auto.
Qed.

Lemma dict_set_keys k v d :
  (dict_set k v d).*1 = if decide (k ∈ d.*1) then d.*1 else d.*1 ++ [k].
Proof.
  induction d as [|[k' v'] d IH].
  - destruct (decide (k ∈ ([] : dict).*1)) as [H|H];
      [by apply elem_of_nil in H | reflexivity].
  - cbn [dict_set]. destruct (String.eqb_spec k k') as [->|Hne].
    + destruct (decide (k' ∈ ((k', v') :: d).*1)) as [H|H];
        [reflexivity | exfalso; apply H; left].
    + rewrite !fmap_cons, IH. cbn [fst].
      destruct (decide (k ∈ d.*1)) as [Hin|Hnin];
        destruct (decide (k ∈ k' :: d.*1)) as [H|H]; try reflexivity.
      * exfalso; apply H. by right.
      * apply elem_of_cons in H as [?|?]; done.
Qed.

Lemma dict_set_NoDup k v d : NoDup d.*1 → NoDup (dict_set k v d).*1.
Proof.
  intros Hd. rewrite dict_set_keys. case_decide as Hin; [done|].
  apply NoDup_app. split_and!; [done | | apply NoDup_singleton].
  intros x Hx Hx'. apply list_elem_of_singleton in Hx'. by subst.
Qed.

(** The merge of [update]: the source's binding of a name wins. *)
Lemma dict_get_merge k d src :
  NoDup src.*1 →
  dict_get k (dict_merge d src) =
    match dict_get k src with Some v => Some v | None => dict_get k d end.
Proof.
  unfold dict_merge. revert d.
  induction src as [|[k' v'] src IH]; intros d Hnd; simpl; [done|].
  simpl in Hnd. apply NoDup_cons in Hnd as [Hk' Hnd].
  rewrite IH by done. destruct (String.eqb_spec k k') as [->|Hne].
  - apply dict_get_None in Hk'. rewrite Hk'. apply dict_get_set_eq.
  - destruct (dict_get k src); [done|]. by rewrite dict_get_set_ne.
Qed.

(** ** The run of the script up to the console *)

Lemma bind_run {A B} (m : M A) (f : A → M B) w a w' :
  m w = Ok a w' → (m ≫= f) w = f a w'.
Proof. intros H. unfold mbind, M_bind. by rewrite H. Qed.

Lemma bind_raise {A B} (m : M A) (f : A → M B) w e w' :
  m w = Raise e w' → (m ≫= f) w = Raise e w'.
Proof. intros H. unfold mbind, M_bind. by rewrite H. Qed.

Ltac run_prim :=
  cbv beta iota delta
    [globals locals_ emit mbind M_bind mret M_ret log w_heap rl_completer
     rl_bindings trace Completer_init InteractiveConsole_init set_completer
     print parse_and_bind f_globals f_locals namespace];
  reflexivity.

Section Run.

Context (available : string → bool).
Context (builtins : dict) (main_ns : loc).

Lemma store_name_run fr name v h c b t d :
  h !! f_locals fr = Some d →
  store_name fr name v (mkWorld h c b t)
  = Ok tt (mkWorld (<[f_locals fr := dict_set name v d]> h) c b t).
Proof.
  intros H. unfold store_name, mbind, M_bind, get_dict. cbn. by rewrite H.
Qed.

Lemma import_run fr name h c b t d :
  available name = true →
  h !! f_locals fr = Some d →
  import available fr name (mkWorld h c b t)
  = Ok tt (mkWorld (<[f_locals fr := dict_set name (VModule name) d]> h) c b
             (t ++ [EImport name])).
Proof.
  intros Ha H. unfold import. erewrite bind_run by reflexivity.
  rewrite Ha. by apply store_name_run.
Qed.

Lemma import_fails fr name w :
  available name = false →
  import available fr name w
  = Raise (ModuleNotFoundError name)
      (log (EFailed (ModuleNotFoundError name)) (log (EImport name) w)).
Proof.
  intros Ha. unfold import. erewrite bind_run by reflexivity.
  by rewrite Ha.
Qed.

Lemma load_name_ok fr name v w d :
  w_heap w !! f_locals fr = Some d →
  dict_get name d = Some v →
  load_name builtins fr name w = Ok v w.
Proof.
  intros H Hv. unfold load_name, mbind, M_bind, get_dict.
  by rewrite H, Hv.
Qed.

Lemma load_name_run fr name v h c b t d :
  h !! f_locals fr = Some d →
  dict_get name d = Some v →
  load_name builtins fr name (mkWorld h c b t) = Ok v (mkWorld h c b t).
Proof. apply (load_name_ok fr name v (mkWorld h c b t)). Qed.

Lemma update_run a b' d s h c b t :
  h !! a = Some d → h !! b' = Some s →
  update (VDict a) (VDict b') (mkWorld h c b t)
  = Ok tt (mkWorld (if decide (a = b') then h else <[a := dict_merge d s]> h)
             c b (t ++ [EUpdate a b'])).
Proof.
  intros Ha Hb. unfold update. erewrite bind_run by reflexivity.
  case_decide; [reflexivity|].
  unfold mbind, M_bind, get_dict. cbn. rewrite Ha. cbn. by rewrite Hb.
Qed.

Lemma bound_locals_vs g l0 : dict_get "vs" (bound_locals g l0) = Some (VDict g).
Proof. apply dict_get_set_eq. Qed.

(** Lines 1 to 16 where the four modules are there. *)
Lemma configure_run h0 fr g0 l0 platform :
  forallb available modules = true →
  configure available builtins main_ns fr platform (boot h0 fr g0 l0)
  = Ok tt (configured h0 fr g0 l0 platform).
Proof.
  intros Hav. cbn [forallb modules] in Hav.
  apply andb_prop in Hav as [H1 Hav]. apply andb_prop in Hav as [H2 Hav].
  apply andb_prop in Hav as [H3 Hav]. apply andb_prop in Hav as [H4 _].
  destruct fr as [g l]. unfold configure, boot, configured, setup_events.
  cbn [f_globals f_locals].
  do 4 (erewrite bind_run;
          [| apply import_run; [assumption | cbn [f_locals]; apply lookup_insert_eq]];
        cbn [f_locals]; rewrite insert_insert_eq).
  erewrite bind_run by run_prim.
  erewrite bind_run;
    [| apply store_name_run; cbn [f_locals]; apply lookup_insert_eq].
  cbn [f_locals]. rewrite insert_insert_eq. fold (bound_locals g l0).
  erewrite bind_run;
    [| eapply load_name_run;
       [cbn [f_locals]; apply lookup_insert_eq | apply bound_locals_vs]].
  erewrite bind_run by run_prim.
  unfold start_namespace, platform_bindings, platform_events.
  cbn [f_locals f_globals].
  destruct (decide (g = l)) as [->|Hne].
  - erewrite bind_run;
      [| apply update_run; apply lookup_insert_eq].
    rewrite decide_True by done.
    erewrite bind_run;
      [| eapply load_name_run;
         [cbn [f_locals]; apply lookup_insert_eq | apply bound_locals_vs]].
    do 2 erewrite bind_run by run_prim.
    rewrite !insert_insert_eq.
    destruct (startswith platform "linux"); [reflexivity|].
    destruct (String.eqb platform "darwin"); reflexivity.
  - erewrite bind_run;
      [| apply update_run;
         [rewrite lookup_insert_ne by done; apply lookup_insert_eq
         | apply lookup_insert_eq]].
    rewrite decide_False by done.
    erewrite bind_run;
      [| eapply load_name_run;
         [cbn [f_locals]; rewrite lookup_insert_ne by done;
          apply lookup_insert_eq
         | apply bound_locals_vs]].
    do 2 erewrite bind_run by run_prim.
    destruct (startswith platform "linux"); [reflexivity|].
    destruct (String.eqb platform "darwin"); reflexivity.
Qed.

(** Lines 1 to 4 where a module is missing: the import of the first such
    module raises, after the imports before it and before anything else. *)
Lemma configure_fails h0 fr g0 l0 platform m :
  first_missing available = Some m →
  ∃ w' imported,
    configure available builtins main_ns fr platform (boot h0 fr g0 l0)
    = Raise (ModuleNotFoundError m) w' ∧
    rl_completer w' = None ∧
    rl_bindings w' = [] ∧
    trace w' = map EImport (imported ++ [m]) ++ [EFailed (ModuleNotFoundError m)] ∧
    (∃ later, modules = imported ++ m :: later).
Proof.
  unfold first_missing, modules. cbn [List.find].
  destruct fr as [g l]. unfold configure, boot. cbn [f_globals f_locals].
  destruct (available "code") eqn:H1; cbn [negb].
  2:{ intros [= <-]. eexists _, [].
      erewrite bind_raise by (by apply import_fails).
      split_and!; [reflexivity.. | by eexists]. }
  erewrite bind_run;
    [| apply import_run; [assumption | cbn [f_locals]; apply lookup_insert_eq]].
  cbn [f_locals]. rewrite insert_insert_eq.
  destruct (available "readline") eqn:H2; cbn [negb].
  2:{ intros [= <-]. eexists _, ["code"].
      erewrite bind_raise by (by apply import_fails).
      split_and!; [reflexivity.. | by eexists]. }
  erewrite bind_run;
    [| apply import_run; [assumption | cbn [f_locals]; apply lookup_insert_eq]].
  cbn [f_locals]. rewrite insert_insert_eq.
  destruct (available "rlcompleter") eqn:H3; cbn [negb].
  2:{ intros [= <-]. eexists _, ["code"; "readline"].
      erewrite bind_raise by (by apply import_fails).
      split_and!; [reflexivity.. | by eexists]. }
  erewrite bind_run;
    [| apply import_run; [assumption | cbn [f_locals]; apply lookup_insert_eq]].
  cbn [f_locals]. rewrite insert_insert_eq.
  destruct (available "sys") eqn:H4; cbn [negb]; [discriminate|].
  intros [= <-]. eexists _, ["code"; "readline"; "rlcompleter"].
  erewrite bind_raise by (by apply import_fails).
  split_and!; [reflexivity.. | by eexists].
Qed.

Lemma first_missing_None :
  first_missing available = None ↔ forallb available modules = true.
Proof.
  unfold first_missing, modules. cbn [List.find forallb].
  destruct (available "code"), (available "readline"),
    (available "rlcompleter"), (available "sys"); cbn; split; congruence.
Qed.

End Run.

(** ** The steps of the console *)

Lemma extends_refl w : extends w w [].
Proof. unfold extends. by rewrite app_nil_r. Qed.

Lemma extends_trans w1 w2 w3 evs evs' :
  extends w1 w2 evs → extends w2 w3 evs' → extends w1 w3 (evs ++ evs').
Proof.
  intros (Hc & Hb & Ht) (Hc' & Hb' & Ht'). unfold extends.
  rewrite Hc', Hb', Ht', Ht, app_assoc. done.
Qed.

Lemma extends_log w ev : extends w (log ev w) [ev].
Proof. done. Qed.

Lemma prompts_app tr tr' : prompts (tr ++ tr') = prompts tr ++ prompts tr'.
Proof. apply omap_app. Qed.

Lemma executed_sources_app tr tr' :
  executed_sources (tr ++ tr') = executed_sources tr ++ executed_sources tr'.
Proof. apply omap_app. Qed.

Lemma prompts_map_EPrompt ps : prompts (map EPrompt ps) = ps.
Proof. induction ps as [|p ps IH]; [done|]. cbn. by f_equal. Qed.

Lemma executed_sources_map_EPrompt ps : executed_sources (map EPrompt ps) = [].
Proof. induction ps as [|p ps IH]; [done | exact IH]. Qed.

Lemma prompts_map_EStdout l : prompts (map EStdout l) = [].
Proof. induction l as [|x l IH]; [done | exact IH]. Qed.

Lemma executed_sources_map_EStdout l : executed_sources (map EStdout l) = [].
Proof. induction l as [|x l IH]; [done | exact IH]. Qed.

Lemma console_event_stdout ns l : forallb (console_event ns) (map EStdout l) = true.
Proof. induction l; [done | exact IHl]. Qed.

Lemma console_step_refl ns w : console_step ns w w [].
Proof. split_and!; [apply extends_refl | done | done]. Qed.

Lemma console_step_trans ns w1 w2 w3 evs evs' :
  console_step ns w1 w2 evs → console_step ns w2 w3 evs' →
  console_step ns w1 w3 (evs ++ evs').
Proof.
  intros (He & Hc & Hh) (He' & Hc' & Hh'). split_and!.
  - by eapply extends_trans.
  - by rewrite forallb_app, Hc, Hc'.
  - rewrite executed_sources_app. intros [H1 H2]%app_eq_nil.
    by rewrite Hh', Hh.
Qed.

Lemma console_step_log ns w ev :
  console_event ns ev = true → executed_sources [ev] = [] →
  console_step ns w (log ev w) [ev].
Proof.
  intros Hc Hx. split_and!; [apply extends_log | by cbn; rewrite Hc | done].
Qed.

Lemma escaped_app e evs evs' : escaped e evs' → escaped e (evs ++ evs').
Proof.
  unfold escaped. rewrite last_app.
  intros [H|[H ?]]; rewrite H; auto.
Qed.

(** The step made of plain events, none of them an execution. *)
Ltac plain_step :=
  unfold console_step, extends;
  cbn [log trace final rl_completer rl_bindings w_heap];
  rewrite <- ?app_assoc; split_and!; done.

Section Steps.

Context {A B : Type} (inside : bool) (ns : loc).

Lemma step_post_ret w (a : A) (Q : A → Prop) :
  Q a → step_post inside ns w ((mret a : M A) w) Q.
Proof. intros HQ. exists []. split_and!; [apply console_step_refl | done | done]. Qed.

Lemma step_post_emit w ev (Q : unit → Prop) :
  console_event ns ev = true → executed_sources [ev] = [] → prompts [ev] = [] →
  Q tt → step_post inside ns w (emit ev w) Q.
Proof.
  intros Hc Hx Hp HQ. exists [ev].
  split_and!; [by apply console_step_log | done | done].
Qed.

Lemma step_post_fail w e (Q : A → Prop) :
  step_post inside ns w (fail e w) Q.
Proof.
  exists [EFailed e]. split_and!; [by apply console_step_log | done |].
  cbn. left. by left.
Qed.

Lemma step_post_weaken w (r : outcome A) (Q Q' : A → Prop) :
  step_post inside ns w r Q → (∀ a, Q a → Q' a) → step_post inside ns w r Q'.
Proof.
  intros (evs & Hs & Hp & Hr) HQ. exists evs. split_and!; [done | done |].
  destruct r; auto.
Qed.

Lemma step_post_bind w (m : M A) (f : A → M B) (Q : A → Prop) (Q' : B → Prop) :
  step_post inside ns w (m w) Q →
  (∀ a w', Q a → step_post inside ns w' (f a w') Q') →
  step_post inside ns w ((m ≫= f) w) Q'.
Proof.
  intros (evs & Hs & Hp & Hr) Hf. unfold mbind, M_bind.
  destruct (m w) as [a w1|e w1|w1]; cbn [final] in *; [| |done].
  - destruct (Hf a w1 Hr) as (evs' & Hs' & Hp' & Hr').
    exists (evs ++ evs'). split_and!.
    + by eapply console_step_trans.
    + by rewrite prompts_app, Hp, Hp'.
    + destruct (f a w1) as [b w2|e w2|w2]; [done | | done].
      destruct Hr' as [He|Hi]; [left; by apply escaped_app | by right].
  - exists evs. by split_and!.
Qed.

End Steps.

Section Catch.

Context {A : Type} (ns : loc).

Lemma step_post_catch w (body handler : M A) (Q : A → Prop) :
  step_post true ns w (body w) Q →
  (∀ w', step_post false ns w' (handler w') Q) →
  step_post false ns w (except_KeyboardInterrupt body handler w) Q.
Proof.
  intros (evs & Hs & Hp & Hr) Hh. unfold except_KeyboardInterrupt.
  destruct (body w) as [a w1|e w1|w1]; cbn [final] in *; [| |done].
  - exists evs. by split_and!.
  - assert (e ≠ KeyboardInterrupt →
            step_post false ns w (Raise e w1 : outcome A) Q) as Hother.
    { intros Hne. exists evs. split_and!; [done | done |].
      destruct Hr as [He|[_ ->]]; [by left | done]. }
    destruct e as [code| |diag]; [by apply Hother | | by apply Hother].
    destruct (Hh w1) as (evs' & Hs' & Hp' & Hr').
    exists (evs ++ evs'). split_and!.
    + by eapply console_step_trans.
    + by rewrite prompts_app, Hp, Hp'.
    + destruct (handler w1) as [b w2|e w2|w2]; [done | | done].
      destruct Hr' as [He|[? _]]; [left; by apply escaped_app | done].
Qed.

End Catch.

Section Console.

Context (sys_attr : heap → sys_state).
Context (sys_version : string) (compile_command : string → compiled).

Lemma write_run data w :
  write sys_attr data w =
    match sys_stderr (sys_attr (w_heap w)) with
    | None => Ok tt (log (EWrite data) w)
    | Some e => Raise e (log (EFailed e) w)
    end.
Proof. unfold write. by destruct (sys_stderr _). Qed.

Lemma prompt_run more w :
  prompt sys_attr more w =
    match (if more then sys_ps2 else sys_ps1) (sys_attr (w_heap w)) with
    | Some p => Ok p w
    | None =>
        let e := Error ("AttributeError: module 'sys' has no attribute '"
                        +:+ (if more then "ps2" else "ps1") +:+ "'") in
        Raise e (log (EFailed e) w)
    end.
Proof. reflexivity. Qed.

Lemma ask_run more w :
  ask sys_attr more w =
    match (if more then sys_ps2 else sys_ps1) (sys_attr (w_heap w)) with
    | Some p =>
        match sys_input (sys_attr (w_heap w)) with
        | None => Ok tt (log (EPrompt p) w)
        | Some diag => Raise (Error diag) (log (EFailed (Error diag)) w)
        end
    | None =>
        let e := Error ("AttributeError: module 'sys' has no attribute '"
                        +:+ (if more then "ps2" else "ps1") +:+ "'") in
        Raise e (log (EFailed e) w)
    end.
Proof.
  unfold ask. unfold mbind at 1, M_bind at 1. rewrite prompt_run.
  destruct ((if more then sys_ps2 else sys_ps1) _); [|done].
  unfold show_prompt. by destruct (sys_input _).
Qed.

(** The prompt is shown where it can be read and no stream is lost. *)
Lemma ask_shown (more : bool) w q :
  (if more then sys_ps2 else sys_ps1) (sys_attr (w_heap w)) = Some q →
  sys_input (sys_attr (w_heap w)) = None →
  ask sys_attr more w = Ok tt (log (EPrompt q) w).
Proof. intros Hq Hi. by rewrite ask_run, Hq, Hi. Qed.

Lemma step_post_write inside ns data w :
  step_post inside ns w (write sys_attr data w) (λ _, True).
Proof.
  unfold write. destruct (sys_stderr _).
  - apply step_post_fail.
  - by apply step_post_emit.
Qed.

Lemma step_post_show inside ns e text w :
  step_post inside ns w (show sys_attr e text w) (λ _, True).
Proof.
  unfold show. destruct (sys_excepthook _) as [|[e'|]].
  - apply step_post_write.
  - eapply step_post_bind with (Q := λ _, True); [by apply step_post_emit|].
    intros _ w' _. apply step_post_fail.
  - eapply step_post_bind with (Q := λ _, True); [by apply step_post_emit|].
    intros _ w' _. by apply step_post_ret.
Qed.

Lemma step_post_runcode inside self source c w :
  step_post inside (locals self) w (runcode sys_attr self source c w) (λ _, True).
Proof.
  unfold runcode.
  set (x := c (locals self) (w_heap w)).
  set (w1 := mkWorld _ _ _ _).
  assert (console_step (locals self) w w1
            (EExec source (locals self) :: map EStdout (x_stdout x))) as Hs1.
  { split_and!; [done | | done].
    cbn. by rewrite Nat.eqb_refl, console_event_stdout. }
  assert (prompts (EExec source (locals self) :: map EStdout (x_stdout x)) = [])
    as Hp1 by apply prompts_map_EStdout.
  destruct (x_exn x) as [e|].
  2:{ eexists. by split_and!. }
  destruct (is_SystemExit e) eqn:He.
  - exists ((EExec source (locals self) :: map EStdout (x_stdout x)) ++ [ERaised e]).
    split_and!.
    + eapply console_step_trans; [exact Hs1|]. by apply console_step_log.
    + by rewrite prompts_app, Hp1.
    + cbn [mbind M_bind emit raise]. left. right.
      by rewrite last_snoc.
  - assert (step_post inside (locals self) w1
              ((emit (ERaised e);; showtraceback sys_attr e) w1) (λ _, True))
      as (evs & Hs & Hp & Hr).
    { eapply step_post_bind with (Q := λ _, True); [by apply step_post_emit|].
      intros _ w' _. apply step_post_show. }
    eexists (_ ++ evs). split_and!.
    + by eapply console_step_trans.
    + by rewrite prompts_app, Hp1, Hp.
    + destruct ((emit (ERaised e);; showtraceback sys_attr e) w1)
        as [[] w2|e2 w2|w2]; [done | | done].
      destruct Hr as [Hr|Hr]; [left; by apply escaped_app | by right].
Qed.

Lemma step_post_push inside self line w :
  step_post inside (locals self) w (push sys_attr compile_command self line w)
    (λ r, locals r.2 = locals self).
Proof.
  unfold push, runsource.
  set (self' := mkConsole _ _ _). set (source := join nl _).
  change (locals self) with (locals self').
  eapply step_post_bind with (Q := λ _, True).
  - destruct (compile_command source) as [|diag|c|e].
    + by apply step_post_ret.
    + eapply step_post_bind with (Q := λ _, True); [apply step_post_show|].
      intros _ w' _. by apply step_post_ret.
    + eapply step_post_bind with (Q := λ _, True); [apply step_post_runcode|].
      intros _ w' _. by apply step_post_ret.
    + apply step_post_fail.
  - intros more w' _. apply step_post_ret. by destruct more.
Qed.

(** A turn: no prompt, console events only, and the state or the way
    out that its input calls for. *)
Lemma turn_post st i w :
  step_post false (locals st.2) w (turn sys_attr compile_command st i w)
    (λ r, match r with
          | Some st' => locals st'.2 = locals st.2 ∧ i ≠ EOF
          | None => i = EOF
          end).
Proof.
  assert (∀ w', step_post false (locals st.2) w'
            ((write sys_attr (nl +:+ "KeyboardInterrupt" +:+ nl);;
              mret (Some (false, resetbuffer st.2))) w')
            (λ r, match r with
                  | Some st' => locals st'.2 = locals st.2
                  | None => False
                  end)) as Hhandler.
  { intros w'. eapply step_post_bind with (Q := λ _, True); [apply step_post_write|].
    intros _ w'' _. by apply step_post_ret. }
  destruct i as [line| | |e].
  - unfold turn. apply step_post_catch.
    + eapply step_post_bind; [apply step_post_push|].
      intros r w' Hr. by apply step_post_ret.
    + intros w'. eapply step_post_weaken; [apply Hhandler|].
      by intros [st'|].
  - unfold turn, except_KeyboardInterrupt, mbind, M_bind, mret, M_ret, emit.
    rewrite write_run. cbn [log w_heap].
    destruct (sys_stderr (sys_attr (w_heap w))) as [e|] eqn:E.
    + assert (step_post false (locals st.2) w
                (Raise e (log (EFailed e) (log EEOFError w))
                 : outcome (option (bool * InteractiveConsole)))
                (λ r, match r with
                      | Some st' => locals st'.2 = locals st.2 ∧ EOF ≠ EOF
                      | None => EOF = EOF
                      end)) as Hraise.
      { exists [EEOFError; EFailed e]. split; [plain_step | split; [done|]].
        left. by left. }
      destruct e as [code| |diag]; [exact Hraise | | exact Hraise].
      rewrite write_run. cbn [log w_heap]. rewrite E.
      exists [EEOFError; EFailed KeyboardInterrupt; EFailed KeyboardInterrupt].
      split; [plain_step | split; [done|]]. left. by left.
    + exists [EEOFError; EWrite nl]. split; [plain_step | by split].
  - unfold turn. apply step_post_catch.
    + exists [EInterrupt]. split; [plain_step | split; [done|]]. by right.
    + intros w'. eapply step_post_weaken; [apply Hhandler|].
      by intros [st'|].
  - unfold turn. apply step_post_catch.
    + apply step_post_fail.
    + intros w'. eapply step_post_weaken; [apply Hhandler|].
      by intros [st'|].
Qed.

End Console.
(** ** The interactive loop *)

Section Loop.

Context (sys_attr : heap → sys_state).
Context (compile_command : string → compiled).

Lemma ask_cases more w :
  (∃ p, ask sys_attr more w = Ok tt (log (EPrompt p) w)) ∨
  (∃ e, ask sys_attr more w = Raise e (log (EFailed e) w)).
Proof.
  rewrite ask_run.
  destruct ((if more then sys_ps2 else sys_ps1) _); [|eauto].
  destruct (sys_input _); eauto.
Qed.

Lemma interact_while_nil st w :
  interact_while sys_attr compile_command [] st w =
    match ask sys_attr st.1 w with
    | Ok _ w0 => Ok (Some st) w0
    | Raise e w0 => Raise e w0
    | Blocked w0 => Blocked w0
    end.
Proof.
  cbn [interact_while]. unfold mbind at 1, M_bind at 1.
  by destruct (ask sys_attr st.1 w).
Qed.

Lemma interact_while_cons i rest st w :
  interact_while sys_attr compile_command (i :: rest) st w =
    match ask sys_attr st.1 w with
    | Ok _ w0 =>
        match turn sys_attr compile_command st i w0 with
        | Ok (Some st') w' => interact_while sys_attr compile_command rest st' w'
        | Ok None w' => Ok None w'
        | Raise e w' => Raise e w'
        | Blocked w' => Blocked w'
        end
    | Raise e w0 => Raise e w0
    | Blocked w0 => Blocked w0
    end.
Proof.
  cbn [interact_while]. unfold mbind at 1, M_bind at 1.
  destruct (ask sys_attr st.1 w) as [[] w0|e w0|w0]; [|done|done].
  unfold mbind at 1, M_bind at 1.
  by destruct (turn sys_attr compile_command st i w0)
    as [[st'|] w'|e w'|w'].
Qed.

Lemma loop_post_fail ns inp e w :
  loop_post ns inp w
    (Raise e (log (EFailed e) w) : outcome (option (bool * InteractiveConsole))).
Proof.
  exists [EFailed e]. split; [plain_step|]. split; [cbn; lia|]. by left.
Qed.

Lemma interact_while_post inp : ∀ st w,
  loop_post (locals st.2) inp w (interact_while sys_attr compile_command inp st w).
Proof.
  induction inp as [|i rest IH]; intros st w.
  - rewrite interact_while_nil.
    destruct (ask_cases st.1 w) as [[p ->]|[e ->]]; [|apply loop_post_fail].
    exists [EPrompt p]. split; [plain_step|]. split; [done|].
    split_and!; [done | apply not_elem_of_nil | done | by exists p].
  - assert (∀ n e w, loop_post n (i :: rest) w
              (Raise e (log (EFailed e) w)
               : outcome (option (bool * InteractiveConsole)))) as Hfail'.
    { intros n e w'. exists [EFailed e]. split; [plain_step|].
      split; [cbn; lia|]. by left. }
    rewrite interact_while_cons.
    destruct (ask_cases st.1 w) as [[p ->]|[e ->]]; [|apply Hfail'].
    destruct (turn_post sys_attr compile_command st i (log (EPrompt p) w))
      as (evs1 & Hs1 & Hp1 & Hr1).
    assert (console_step (locals st.2) w
              (final (turn sys_attr compile_command st i (log (EPrompt p) w)))
              ([EPrompt p] ++ evs1)) as Hs.
    { eapply console_step_trans; [|exact Hs1]. plain_step. }
    destruct (turn sys_attr compile_command st i (log (EPrompt p) w))
      as [[st'|] w1|e w1|w1]; cbn [final] in *; [| | |done].
    + destruct Hr1 as [Hloc Hi].
      destruct (IH st' w1) as (evs2 & Hs2 & Hlen & Hr2). rewrite Hloc in Hs2, Hr2.
      exists (([EPrompt p] ++ evs1) ++ evs2). split; [|split].
      * by eapply console_step_trans.
      * rewrite !prompts_app, Hp1. cbn [prompts omap app length]. cbn. lia.
      * destruct (interact_while sys_attr compile_command rest st' w1)
          as [[st2|] w2|e w2|w2]; [| | |done].
        -- destruct Hr2 as (Hl & Hn & Hlen2 & p2 & Hlast). split_and!.
           ++ done.
           ++ rewrite not_elem_of_cons. by split.
           ++ rewrite !prompts_app, Hp1. cbn. rewrite Hlen2. done.
           ++ exists p2. by rewrite last_app, Hlast.
        -- by right.
        -- by apply escaped_app.
    + exists ([EPrompt p] ++ evs1). split; [done|]. split.
      * rewrite prompts_app, Hp1. cbn. lia.
      * rewrite Hr1. left.
    + exists ([EPrompt p] ++ evs1). split; [done|]. split.
      * rewrite prompts_app, Hp1. cbn. lia.
      * destruct Hr1 as [He|[? _]]; [by apply escaped_app | done].
Qed.

Lemma interact_while_not_Blocked inp st w w' :
  interact_while sys_attr compile_command inp st w ≠ Blocked w'.
Proof.
  intros H. destruct (interact_while_post inp st w) as (evs & _ & _ & Hf).
  by rewrite H in Hf.
Qed.

(** Input that arrives while the loop waits is taken at the prompt
    already shown. *)
Lemma interact_while_snoc i post pre : ∀ st w st' w',
  interact_while sys_attr compile_command pre st w = Ok (Some st') w' →
  interact_while sys_attr compile_command (pre ++ i :: post) st w =
    match turn sys_attr compile_command st' i w' with
    | Ok (Some st2) w2 => interact_while sys_attr compile_command post st2 w2
    | Ok None w2 => Ok None w2
    | Raise e w2 => Raise e w2
    | Blocked w2 => Blocked w2
    end.
Proof.
  induction pre as [|j pre IH]; intros st w st' w'.
  - rewrite interact_while_nil. cbn [app]. rewrite interact_while_cons.
    destruct (ask sys_attr st.1 w) as [[] w0|e w0|w0]; [|done|done].
    by intros [= <- <-].
  - rewrite <- app_comm_cons, !interact_while_cons.
    destruct (ask sys_attr st.1 w) as [[] w0|e w0|w0]; [|done|done].
    destruct (turn sys_attr compile_command st j w0)
      as [[st1|] w1|e w1|w1]; [|done|done|done].
    apply IH.
Qed.

(** *** A turn that executes a statement *)

Lemma runcode_ok self source c w :
  x_exn (c (locals self) (w_heap w)) = None →
  runcode sys_attr self source c w = Ok tt (ran (locals self) source c w).
Proof.
  intros Hx. unfold runcode, ran. rewrite Hx. by rewrite app_nil_r.
Qed.

Lemma runcode_exit self source c w e :
  x_exn (c (locals self) (w_heap w)) = Some e →
  is_SystemExit e = true →
  runcode sys_attr self source c w = Raise e (ran (locals self) source c w).
Proof.
  intros Hx He. unfold runcode, ran. rewrite Hx.
  cbn [mbind M_bind emit raise log w_heap rl_completer rl_bindings trace].
  unfold mbind, M_bind, emit, raise, log. rewrite He.
  cbn [w_heap rl_completer rl_bindings trace].
  by rewrite <- ?app_assoc.
Qed.

Lemma runcode_shown self source c w e :
  x_exn (c (locals self) (w_heap w)) = Some e →
  is_SystemExit e = false →
  displays (sys_attr (x_heap (c (locals self) (w_heap w)))) →
  runcode sys_attr self source c w = Ok tt (ran (locals self) source c w).
Proof.
  intros Hx He [Herr Hhook]. unfold runcode, ran. rewrite Hx.
  unfold mbind, M_bind, emit, showtraceback, show, write. rewrite He.
  cbn [log w_heap rl_completer rl_bindings trace].
  rewrite Hhook, Herr. unfold emit, log.
  cbn [w_heap rl_completer rl_bindings trace].
  by rewrite <- ?app_assoc.
Qed.

Lemma turn_Code st line c w (r : outcome unit) :
  compile_command (join nl (buffer st.2 ++ [line])) = Code c →
  runcode sys_attr
    (mkConsole (locals st.2) (filename st.2) (buffer st.2 ++ [line]))
    (join nl (buffer st.2 ++ [line])) c w = r →
  (∀ w', r ≠ Raise KeyboardInterrupt w') →
  turn sys_attr compile_command st (Line line) w =
    match r with
    | Ok _ w' => Ok (Some (false, resetbuffer st.2)) w'
    | Raise e w' => Raise e w'
    | Blocked w' => Blocked w'
    end.
Proof.
  intros Hc Hr Hki. unfold turn, except_KeyboardInterrupt, push, runsource.
  cbn [buffer locals filename]. rewrite Hc.
  unfold mbind, M_bind. rewrite Hr.
  destruct r as [[] w'|[code| |diag] w'|w']; try reflexivity.
  by destruct (Hki w').
Qed.

Lemma turn_Code_ok st line c w :
  compile_command (join nl (buffer st.2 ++ [line])) = Code c →
  x_exn (c (locals st.2) (w_heap w)) = None →
  turn sys_attr compile_command st (Line line) w
  = Ok (Some (false, resetbuffer st.2))
      (ran (locals st.2) (join nl (buffer st.2 ++ [line])) c w).
Proof.
  intros Hc Hx.
  by rewrite (turn_Code st line c w _ Hc (runcode_ok _ _ c w Hx)).
Qed.

Lemma turn_Code_shown st line c w e :
  compile_command (join nl (buffer st.2 ++ [line])) = Code c →
  x_exn (c (locals st.2) (w_heap w)) = Some e →
  is_SystemExit e = false →
  displays (sys_attr (x_heap (c (locals st.2) (w_heap w)))) →
  turn sys_attr compile_command st (Line line) w
  = Ok (Some (false, resetbuffer st.2))
      (ran (locals st.2) (join nl (buffer st.2 ++ [line])) c w).
Proof.
  intros Hc Hx He Hd.
  by rewrite (turn_Code st line c w _ Hc (runcode_shown _ _ c w e Hx He Hd)).
Qed.

Lemma turn_Code_exit st line c w e :
  compile_command (join nl (buffer st.2 ++ [line])) = Code c →
  x_exn (c (locals st.2) (w_heap w)) = Some e →
  is_SystemExit e = true →
  turn sys_attr compile_command st (Line line) w
  = Raise e (ran (locals st.2) (join nl (buffer st.2 ++ [line])) c w).
Proof.
  intros Hc Hx He.
  rewrite (turn_Code st line c w _ Hc (runcode_exit _ _ c w e Hx He)); [done|].
  intros w' [= -> _]. discriminate He.
Qed.

End Loop.

(** ** The whole run *)

Lemma started_trace h0 fr g0 l0 platform :
  trace (started h0 fr g0 l0 platform) =
    setup_events fr ++ platform_events platform
    ++ [ENewConsole (f_globals fr); EInteract (f_globals fr)].
Proof.
  unfold started, configured. cbn [log trace].
  by rewrite <- !app_assoc.
Qed.

Lemma configured_locals h0 fr g0 l0 platform :
  ∃ d, w_heap (configured h0 fr g0 l0 platform) !! f_locals fr = Some d
       ∧ dict_get "vs" d = Some (VDict (f_globals fr)).
Proof.
  unfold configured, start_namespace. cbn [w_heap].
  destruct (decide (f_globals fr = f_locals fr)) as [E|E].
  - rewrite <- E. exists (bound_locals (f_globals fr) l0).
    split; [apply lookup_insert_eq | apply bound_locals_vs].
  - exists (bound_locals (f_globals fr) l0).
    rewrite lookup_insert_ne by done.
    split; [apply lookup_insert_eq | apply bound_locals_vs].
Qed.

Section Session.

Context (available : string → bool) (sys_attr : heap → sys_state).
Context (builtins : dict) (main_ns : loc) (sys_version : string).
Context (compile_command : string → compiled).

Lemma interact_eq platform self inp w :
  interact sys_attr sys_version compile_command platform self inp w =
    let w1 := log (EInteract (locals self)) w in
    match sys_stderr (sys_attr (w_heap w1)) with
    | Some e => Raise e (log (EFailed e) w1)
    | None =>
        match interact_while sys_attr compile_command inp (false, self)
                (log (EWrite (banner sys_version platform)) w1) with
        | Ok (Some _) w' => Blocked w'
        | Ok None w' =>
            match sys_stderr (sys_attr (w_heap w')) with
            | Some e => Raise e (log (EFailed e) w')
            | None => Ok tt (log (EWrite exitmsg) w')
            end
        | Raise e w' => Raise e w'
        | Blocked w' => Blocked w'
        end
    end.
Proof.
  unfold interact. erewrite bind_run by reflexivity. cbn zeta.
  unfold mbind at 1, M_bind at 1. rewrite write_run.
  destruct (sys_stderr _) as [e|]; [done|].
  unfold mbind, M_bind.
  by destruct (interact_while _ _ _ _ _) as [[st'|] w'|e w'|w'].
Qed.

(** [interact], from the call on: console events only, and how it ends. *)
Lemma interact_post platform self inp w :
  let r := interact sys_attr sys_version compile_command platform self inp w in
  ∃ evs,
    console_step (locals self) (log (EInteract (locals self)) w) (final r) evs ∧
    (length (prompts evs) ≤ S (length inp))%nat ∧
    match r with
    | Ok _ _ => (EOF ∈ inp) ∧ last evs = Some (EWrite exitmsg)
    | Raise e _ => escaped e evs
    | Blocked _ =>
        (EOF ∉ inp) ∧ length (prompts evs) = S (length inp) ∧
        ∃ p, last evs = Some (EPrompt p)
    end.
Proof.
  intros r. unfold r. rewrite interact_eq. cbn zeta.
  set (w1 := log (EInteract (locals self)) w).
  destruct (sys_stderr (sys_attr (w_heap w1))) as [e|].
  { exists [EFailed e]. split; [plain_step|]. split; [cbn; lia | by left]. }
  set (w2 := log (EWrite (banner sys_version platform)) w1).
  destruct (interact_while_post sys_attr compile_command inp (false, self) w2)
    as (evs & Hs & Hlen & Hr).
  cbn [snd] in Hs, Hr.
  assert (console_step (locals self) w1
            (final (interact_while sys_attr compile_command inp (false, self) w2))
            ([EWrite (banner sys_version platform)] ++ evs)) as Hs'.
  { eapply console_step_trans; [|exact Hs]. plain_step. }
  assert (prompts ([EWrite (banner sys_version platform)] ++ evs) = prompts evs)
    as Hp by done.
  fold w2.
  destruct (interact_while sys_attr compile_command inp (false, self) w2)
    as [[st'|] w'|e w'|w']; cbn [final] in *; [| | |done].
  - exists ([EWrite (banner sys_version platform)] ++ evs).
    split; [done|]. rewrite Hp. split; [done|].
    destruct Hr as (_ & Hn & Hl & p & Hlast).
    split_and!; [done | done |]. exists p. by rewrite last_app, Hlast.
  - destruct (sys_stderr (sys_attr (w_heap w'))) as [e|].
    + exists (([EWrite (banner sys_version platform)] ++ evs) ++ [EFailed e]).
      split; [eapply console_step_trans; [exact Hs' | plain_step]|].
      rewrite prompts_app, Hp, app_nil_r. split; [done|].
      left. by rewrite last_snoc.
    + exists (([EWrite (banner sys_version platform)] ++ evs) ++ [EWrite exitmsg]).
      split; [eapply console_step_trans; [exact Hs' | plain_step]|].
      rewrite prompts_app, Hp, app_nil_r. split; [done|].
      split; [done | by rewrite last_snoc].
  - exists ([EWrite (banner sys_version platform)] ++ evs).
    split; [done|]. rewrite Hp. split; [done | by apply escaped_app].
Qed.

Lemma launch_run h0 fr g0 l0 platform inp :
  forallb available modules = true →
  launch available sys_attr builtins main_ns sys_version compile_command
    fr platform inp (boot h0 fr g0 l0)
  = interact sys_attr sys_version compile_command platform (console fr) inp
      (log (ENewConsole (f_globals fr)) (configured h0 fr g0 l0 platform)).
Proof.
  intros Hav. unfold launch.
  erewrite bind_run by (by apply configure_run).
  destruct (configured_locals h0 fr g0 l0 platform) as (d & Hd & Hvs).
  erewrite bind_run by (eapply load_name_ok; [exact Hd | exact Hvs]).
  unfold mbind at 1, M_bind at 1. cbn [InteractiveConsole_init].
  unfold mbind at 1, M_bind at 1. by cbn [emit mret M_ret].
Qed.

(** The run of the script where its imports succeed. *)
Lemma launch_post h0 fr g0 l0 platform inp :
  forallb available modules = true →
  run_post h0 fr g0 l0 platform inp
    (launch available sys_attr builtins main_ns sys_version compile_command
       fr platform inp (boot h0 fr g0 l0)).
Proof.
  intros Hav. rewrite launch_run by done.
  destruct (interact_post platform (console fr) inp
              (log (ENewConsole (f_globals fr)) (configured h0 fr g0 l0 platform)))
    as (evs & ((Hc & Hb & Ht) & Hev & Hh) & Hlen & Hr).
  cbn [console locals] in *. exists evs.
  split_and!; [by rewrite Hc | by rewrite Hb | exact Ht | exact Hev | exact Hh
              | exact Hlen | exact Hr].
Qed.

(** The run of the script where one of its imports fails: it ends there,
    before anything is configured. *)
Lemma launch_fails h0 fr g0 l0 platform inp m :
  first_missing available = Some m →
  ∃ w' imported later,
    launch available sys_attr builtins main_ns sys_version compile_command
      fr platform inp (boot h0 fr g0 l0)
    = Raise (ModuleNotFoundError m) w' ∧
    rl_completer w' = None ∧
    rl_bindings w' = [] ∧
    trace w' = map EImport (imported ++ [m]) ++ [EFailed (ModuleNotFoundError m)] ∧
    modules = imported ++ m :: later.
Proof.
  intros Hm.
  destruct (configure_fails available builtins main_ns h0 fr g0 l0 platform m Hm)
    as (w' & imported & Hc & ? & ? & ? & later & ?).
  exists w', imported, later. split_and!; try done.
  unfold launch. by erewrite bind_raise.
Qed.

End Session.

(** ** The script where every module is there and [sys] is left alone *)

Section Intact.

Context (builtins : dict) (main_ns : loc) (sys_version : string).
Context (compile_command : string → compiled).

Lemma interact_loop_nil st w :
  interact_loop compile_command [] st w
  = Ok (Some st) (log (EPrompt (prompt_of st)) w).
Proof.
  unfold interact_loop. rewrite interact_while_nil.
  by destruct st as [[] self].
Qed.

Lemma interact_loop_cons i rest st w :
  interact_loop compile_command (i :: rest) st w =
    match turn sys_intact compile_command st i (log (EPrompt (prompt_of st)) w) with
    | Ok (Some st') w' => interact_loop compile_command rest st' w'
    | Ok None w' => Ok None w'
    | Raise e w' => Raise e w'
    | Blocked w' => Blocked w'
    end.
Proof.
  unfold interact_loop. rewrite interact_while_cons.
  by destruct st as [[] self].
Qed.

Lemma runcode_run self source c w :
  runcode sys_intact self source c w =
    match x_exn (c (locals self) (w_heap w)) with
    | Some (SystemExit code) => Raise (SystemExit code) (ran (locals self) source c w)
    | _ => Ok tt (ran (locals self) source c w)
    end.
Proof.
  destruct (x_exn (c (locals self) (w_heap w))) as [e|] eqn:Hx.
  - destruct (is_SystemExit e) eqn:He.
    + rewrite (runcode_exit _ _ _ _ _ e Hx He). by destruct e.
    + rewrite (runcode_shown _ _ _ _ _ e Hx He) by done. by destruct e.
  - by rewrite runcode_ok.
Qed.

Lemma turn_Interrupt st w :
  turn sys_intact compile_command st Interrupt w
  = Ok (Some (false, resetbuffer st.2))
      (log (EWrite (nl +:+ "KeyboardInterrupt" +:+ nl)) (log EInterrupt w)).
Proof. reflexivity. Qed.

Lemma turn_Line st line w :
  turn sys_intact compile_command st (Line line) w =
    let self := mkConsole (locals st.2) (filename st.2) (buffer st.2 ++ [line]) in
    let source := join nl (buffer self) in
    match compile_command source with
    | Invalid diag => Ok (Some (false, resetbuffer self)) (log (EWrite diag) w)
    | Incomplete => Ok (Some (true, self)) w
    | Code c =>
        match x_exn (c (locals self) (w_heap w)) with
        | Some (SystemExit code) =>
            Raise (SystemExit code) (ran (locals self) source c w)
        | _ => Ok (Some (false, resetbuffer self)) (ran (locals self) source c w)
        end
    | Crash KeyboardInterrupt =>
        Ok (Some (false, resetbuffer self))
          (log (EWrite (nl +:+ "KeyboardInterrupt" +:+ nl))
             (log (EFailed KeyboardInterrupt) w))
    | Crash e => Raise e (log (EFailed e) w)
    end.
Proof.
  unfold turn, except_KeyboardInterrupt, push, runsource. cbn zeta.
  cbn [buffer locals filename].
  destruct (compile_command _) as [|diag|c|e];
    [reflexivity | reflexivity | | by destruct e].
  unfold mbind, M_bind. rewrite runcode_run. cbn [locals].
  by destruct (x_exn _) as [[code| |diag]|].
Qed.

(** A statement that runs to its end or raises an exception other than
    [SystemExit], which is shown. *)
Lemma turn_Line_Code st line c w :
  compile_command (join nl (buffer st.2 ++ [line])) = Code c →
  (∀ code, x_exn (c (locals st.2) (w_heap w)) ≠ Some (SystemExit code)) →
  turn sys_intact compile_command st (Line line) w
  = Ok (Some (false, resetbuffer st.2))
      (ran (locals st.2) (join nl (buffer st.2 ++ [line])) c w).
Proof.
  intros Hc Hx. rewrite turn_Line. cbn zeta. cbn [buffer locals].
  rewrite Hc.
  destruct (x_exn (c (locals st.2) (w_heap w))) as [[code| |diag]|] eqn:E;
    try reflexivity.
  by destruct (Hx code).
Qed.

Lemma interact_run platform self inp w :
  interact sys_intact sys_version compile_command platform self inp w =
    finish (interact_loop compile_command inp (false, self)
              (log (EWrite (banner sys_version platform))
                 (log (EInteract (locals self)) w))).
Proof.
  rewrite interact_eq. cbn zeta. cbn [sys_intact sys_default sys_stderr].
  unfold interact_loop.
  by destruct (interact_while _ _ _ _ _) as [[st'|] w'|e w'|w'].
Qed.

Lemma repl_run h0 fr g0 l0 platform inp :
  repl builtins main_ns sys_version compile_command fr platform inp
    (boot h0 fr g0 l0)
  = finish (interact_loop compile_command inp (false, console fr)
              (entered sys_version h0 fr g0 l0 platform)).
Proof.
  unfold repl. rewrite launch_run by reflexivity. apply interact_run.
Qed.

Lemma repl_post h0 fr g0 l0 platform inp :
  run_post h0 fr g0 l0 platform inp
    (repl builtins main_ns sys_version compile_command fr platform inp
       (boot h0 fr g0 l0)).
Proof. by apply launch_post. Qed.

End Intact.

(** ** The platform dispatch *)

Lemma printed_app tr tr' : printed (tr ++ tr') = printed tr ++ printed tr'.
Proof. apply omap_app. Qed.

Lemma printed_console ns evs :
  forallb (console_event ns) evs = true → printed evs = [].
Proof.
  induction evs as [|ev evs IH]; [done|]. cbn [forallb].
  intros [Hev Hevs]%andb_prop. destruct ev; try discriminate Hev; by apply IH.
Qed.

Lemma console_not_binding ns evs :
  forallb (console_event ns) evs = true → existsb is_binding_event evs = false.
Proof.
  induction evs as [|ev evs IH]; [done|]. cbn [forallb existsb].
  intros [Hev Hevs]%andb_prop. rewrite (IH Hevs).
  by destruct ev.
Qed.

Lemma console_not_interact ns evs :
  forallb (console_event ns) evs = true → existsb is_interact evs = false.
Proof.
  induction evs as [|ev evs IH]; [done|]. cbn [forallb existsb].
  intros [Hev Hevs]%andb_prop. rewrite (IH Hevs).
  by destruct ev.
Qed.

Lemma console_event_exec ns evs source l :
  forallb (console_event ns) evs = true → EExec source l ∈ evs → l = ns.
Proof.
  induction evs as [|ev evs IH]; cbn [forallb].
  - intros _ H. by apply elem_of_nil in H.
  - intros [Hev Hevs]%andb_prop [<-|Hin]%elem_of_cons; [|by apply IH].
    by apply Nat.eqb_eq in Hev.
Qed.

Lemma platform_events_binding platform :
  forallb is_binding_event (platform_events platform) = true.
Proof.
  unfold platform_events.
  destruct (startswith platform "linux"); [done|].
  by destruct (String.eqb platform "darwin").
Qed.

Lemma platform_events_other platform :
  startswith platform "linux" = false → platform ≠ "darwin" →
  platform_events platform = [] ∧ platform_bindings platform = [].
Proof.
  intros Hl Hd. unfold platform_events, platform_bindings. rewrite Hl.
  by destruct (String.eqb_spec platform "darwin").
Qed.

Lemma binding_event_not_exec evs source l :
  forallb is_binding_event evs = true → EExec source l ∉ evs.
Proof.
  induction evs as [|ev evs IH]; cbn [forallb].
  - intros _. apply not_elem_of_nil.
  - intros [Hev Hevs]%andb_prop [<-|Hin]%elem_of_cons;
      [discriminate Hev | by apply IH].
Qed.

Lemma binding_event_not_interact evs :
  forallb is_binding_event evs = true → existsb is_interact evs = false.
Proof.
  induction evs as [|ev evs IH]; [done|]. cbn [forallb existsb].
  intros [Hev Hevs]%andb_prop. rewrite (IH Hevs). by destruct ev.
Qed.

(** Where a list is cut at its only element of a kind. *)
Lemma cut_unique (P : event → bool) (A B : list event) x : ∀ pre y post,
  existsb P A = false → existsb P B = false → P y = true →
  A ++ x :: B = pre ++ y :: post →
  pre = A ∧ y = x ∧ post = B.
Proof.
  induction A as [|a A IH]; intros pre y post HA HB Hy Heq.
  - destruct pre as [|z pre]; cbn [app] in Heq.
    + by injection Heq as -> ->.
    + injection Heq as -> ->. rewrite existsb_app in HB. cbn in HB.
      rewrite Hy, orb_true_r in HB. discriminate HB.
  - cbn [existsb] in HA. apply orb_false_elim in HA as [Ha HA].
    destruct pre as [|z pre]; cbn [app] in Heq.
    + injection Heq as -> _. rewrite Hy in Ha. discriminate Ha.
    + injection Heq as -> Heq.
      destruct (IH pre y post HA HB Hy Heq) as (-> & -> & ->). done.
Qed.

Lemma not_existsb_elem (P : event → bool) (l : list event) x :
  existsb P l = false → P x = true → x ∉ l.
Proof.
  induction l as [|a l IH]; [intros; apply not_elem_of_nil|].
  cbn [existsb]. intros [Ha Hl]%orb_false_elim Hx [->|Hin]%elem_of_cons.
  - rewrite Hx in Ha. discriminate Ha.
  - by apply IH.
Qed.

(** *** On an interpreter in any state *)

Section Launch.

Context (available : string → bool) (sys_attr : heap → sys_state).
Context (builtins : dict) (main_ns : loc) (sys_version : string).
Context (compile_command : string → compiled).
Context (h0 : heap) (fr : frame) (g0 l0 : dict).

Local Abbreviation launched platform inp :=
  (final (launch available sys_attr builtins main_ns sys_version
            compile_command fr platform inp (boot h0 fr g0 l0))).

Lemma launch_trace platform inp :
  forallb available modules = true →
  ∃ evs,
    trace (launched platform inp) =
      setup_events fr ++ platform_events platform
      ++ [ENewConsole (f_globals fr); EInteract (f_globals fr)] ++ evs
    ∧ forallb (console_event (f_globals fr)) evs = true.
Proof.
  intros Hav.
  destruct (launch_post available sys_attr builtins main_ns sys_version
              compile_command h0 fr g0 l0 platform inp Hav)
    as (evs & _ & _ & Ht & Hev & _).
  exists evs. split; [|done]. rewrite Ht, started_trace.
  by rewrite <- !app_assoc.
Qed.

Lemma launch_completer platform inp :
  rl_completer (launched platform inp) =
    if forallb available modules
    then Some (mkCompleter false (f_globals fr) []) else None.
Proof.
  destruct (forallb available modules) eqn:Hav.
  - by destruct (launch_post available sys_attr builtins main_ns sys_version
                   compile_command h0 fr g0 l0 platform inp Hav)
      as (evs & Hc & _).
  - destruct (first_missing available) as [m|] eqn:Hm.
    + destruct (launch_fails available sys_attr builtins main_ns sys_version
                  compile_command h0 fr g0 l0 platform inp m Hm)
        as (w' & imported & later & -> & Hc & _).
      exact Hc.
    + apply first_missing_None in Hm. congruence.
Qed.

(** The first prompt, where the banner can be written, [sys.ps1] read and
    no standard stream is lost. *)
Lemma launch_first_prompt platform inp p :
  forallb available modules = true →
  sys_stderr (sys_attr (w_heap (started h0 fr g0 l0 platform))) = None →
  sys_ps1 (sys_attr (w_heap (started h0 fr g0 l0 platform))) = Some p →
  sys_input (sys_attr (w_heap (started h0 fr g0 l0 platform))) = None →
  ∃ evs,
    trace (launched platform inp) =
      trace (started h0 fr g0 l0 platform)
      ++ [EWrite (banner sys_version platform); EPrompt p] ++ evs.
Proof.
  intros Hav Herr Hps Hin. rewrite launch_run by done. rewrite interact_eq.
  cbn zeta. cbn [console locals].
  change (log (EInteract (f_globals fr))
            (log (ENewConsole (f_globals fr)) (configured h0 fr g0 l0 platform)))
    with (started h0 fr g0 l0 platform).
  rewrite Herr.
  set (w2 := log (EWrite (banner sys_version platform))
               (started h0 fr g0 l0 platform)).
  assert (∃ evs,
            trace (final (interact_while sys_attr compile_command inp
                            (false, mkConsole (f_globals fr) "<console>" []) w2))
            = trace w2 ++ EPrompt p :: evs) as (evs & Ht).
  { assert (ask sys_attr false w2 = Ok tt (log (EPrompt p) w2)) as Hp
      by (by apply ask_shown).
    destruct inp as [|i rest].
    - rewrite interact_while_nil. cbn [fst]. rewrite Hp. by exists [].
    - rewrite interact_while_cons. cbn [fst]. rewrite Hp.
      destruct (turn_post sys_attr compile_command
                  (false, mkConsole (f_globals fr) "<console>" []) i
                  (log (EPrompt p) w2)) as (evs1 & ((_ & _ & Ht1) & _) & _ & Hr1).
      destruct (turn sys_attr compile_command _ i (log (EPrompt p) w2))
        as [[st'|] w1|e w1|w1]; cbn [final] in *;
        try (exists evs1; rewrite Ht1; cbn [log trace];
             by rewrite <- app_assoc).
      destruct (interact_while_post sys_attr compile_command rest st' w1)
        as (evs2 & ((_ & _ & Ht2) & _) & _).
      exists (evs1 ++ evs2). rewrite Ht2, Ht1. cbn [log trace].
      by rewrite <- !app_assoc. }
  assert (trace w2 = trace (started h0 fr g0 l0 platform)
                     ++ [EWrite (banner sys_version platform)]) as Hw2 by done.
  destruct (interact_while _ _ _ _ _) as [[st'|] w'|e w'|w'];
    cbn [final] in Ht.
  - exists evs. cbn [final]. rewrite Ht, Hw2. by rewrite <- app_assoc.
  - destruct (sys_stderr (sys_attr (w_heap w'))) as [e|]; cbn [final log trace];
      eexists (evs ++ [_]); rewrite Ht, Hw2; by rewrite <- !app_assoc.
  - exists evs. cbn [final]. rewrite Ht, Hw2. by rewrite <- app_assoc.
  - exists evs. cbn [final]. rewrite Ht, Hw2. by rewrite <- app_assoc.
Qed.

(** C7, amended: on a platform that is neither of the Linux family nor
    [darwin], and with the four modules of the script importable, the
    launcher configures no key binding and prints nothing, neither a
    message nor a diagnostic, and it still builds the console and calls
    [interact]: the log is that of lines 1 to 10, the creation of the
    console and the call, then events of the console only; where the
    standard error stream takes the banner, [sys.ps1] is there and no
    standard stream is lost, the banner and the first prompt follow at
    once. *)
Theorem unsupported_platform (platform : string) (inp : list input) :
  forallb available modules = true →
  startswith platform "linux" = false →
  platform ≠ "darwin" →
  rl_bindings (launched platform inp) = [] ∧
  existsb is_binding_event (trace (launched platform inp)) = false ∧
  (∃ evs,
     trace (launched platform inp) =
       setup_events fr
       ++ [ENewConsole (f_globals fr); EInteract (f_globals fr)] ++ evs
     ∧ forallb (console_event (f_globals fr)) evs = true) ∧
  (∀ p,
     sys_stderr (sys_attr (w_heap (started h0 fr g0 l0 platform))) = None →
     sys_ps1 (sys_attr (w_heap (started h0 fr g0 l0 platform))) = Some p →
     sys_input (sys_attr (w_heap (started h0 fr g0 l0 platform))) = None →
     ∃ evs,
       trace (launched platform inp) =
         setup_events fr
         ++ [ENewConsole (f_globals fr); EInteract (f_globals fr);
             EWrite (banner sys_version platform); EPrompt p] ++ evs).
Proof.
  intros Hav Hl Hd. destruct (platform_events_other platform Hl Hd) as [He Hb].
  destruct (launch_trace platform inp Hav) as (evs & Ht & Hev).
  rewrite He in Ht. cbn [app] in Ht. split_and!.
  - destruct (launch_post available sys_attr builtins main_ns sys_version
                compile_command h0 fr g0 l0 platform inp Hav)
      as (? & _ & -> & _). exact Hb.
  - rewrite Ht. cbn. by apply console_not_binding with (ns := f_globals fr).
  - by exists evs.
  - intros p Herr Hps Hin.
    destruct (launch_first_prompt platform inp p Hav Herr Hps Hin)
      as (evs' & Ht').
    exists evs'. rewrite Ht', started_trace, He. cbn [app].
    by rewrite <- !app_assoc.
Qed.

(** C8: whenever the console is entered, what came before is, in this
    order: the four imports, the building of the namespace ([globals()],
    [locals()], [update]), the creation of the completer for it and its
    registration, the message and the key binding of the platform, if
    any, and the creation of the console; the completer is then the one
    registered with readline and the key binding of the platform the one
    readline holds; after the entry come events of the console only.  The
    console is entered whenever the four imports succeed. *)
Theorem startup_order (platform : string) (inp : list input) :
  let g := f_globals fr in
  let keys :=
    if startswith platform "linux" then
      [EPrint "use linux..."; EParseAndBind "tab: complete"]
    else if String.eqb platform "darwin" then
      [EPrint "use darwin..."; EParseAndBind "bind ^I rl_complete"]
    else [] in
  let bindings :=
    if startswith platform "linux" then ["tab: complete"]
    else if String.eqb platform "darwin" then ["bind ^I rl_complete"]
    else [] in
  (∀ pre post ns,
     trace (launched platform inp) = pre ++ EInteract ns :: post →
     ns = g ∧
     pre = [EImport "code"; EImport "readline"; EImport "rlcompleter";
            EImport "sys"]
           ++ [EGlobals; ELocals; EUpdate g (f_locals fr)]
           ++ [ENewCompleter g; ESetCompleter g]
           ++ keys ++ [ENewConsole g] ∧
     rl_completer (launched platform inp) = Some (mkCompleter false g []) ∧
     rl_bindings (launched platform inp) = bindings ∧
     forallb (console_event g) post = true) ∧
  (forallb available modules = true → EInteract g ∈ trace (launched platform inp)).
Proof.
  intros g keys bindings. split.
  - intros pre post ns Hcut.
    destruct (first_missing available) as [m|] eqn:Hm.
    { exfalso.
      destruct (launch_fails available sys_attr builtins main_ns sys_version
                  compile_command h0 fr g0 l0 platform inp m Hm)
        as (w' & imported & later & Hr & _ & _ & Ht & _).
      rewrite Hr in Hcut. cbn [final] in Hcut. rewrite Ht in Hcut.
      apply (not_existsb_elem is_interact
               (map EImport (imported ++ [m]) ++ [EFailed (ModuleNotFoundError m)])
               (EInteract ns)); [|done|].
      - rewrite existsb_app. cbn. rewrite orb_false_r.
        generalize (imported ++ [m]). intros l. by induction l.
      - rewrite Hcut. apply elem_of_app. right. left. }
    apply first_missing_None in Hm.
    destruct (launch_post available sys_attr builtins main_ns sys_version
                compile_command h0 fr g0 l0 platform inp Hm)
      as (evs & Hc & Hb & Ht & Hev & _).
    rewrite Ht, started_trace in Hcut.
    assert ((setup_events fr ++ platform_events platform
             ++ [ENewConsole (f_globals fr); EInteract (f_globals fr)]) ++ evs
            = (setup_events fr ++ platform_events platform
               ++ [ENewConsole (f_globals fr)])
              ++ EInteract (f_globals fr) :: evs) as Hshape
      by (by rewrite <- !app_assoc).
    rewrite Hshape in Hcut.
    apply (cut_unique is_interact) in Hcut as (-> & [= ->] & ->); [| | |done].
    + split_and!; [done | reflexivity | exact Hc | exact Hb | exact Hev].
    + rewrite !existsb_app.
      rewrite (binding_event_not_interact _ (platform_events_binding platform)).
      done.
    + by eapply console_not_interact.
  - intros Hav. destruct (launch_trace platform inp Hav) as (evs & -> & _).
    rewrite !elem_of_app. right. right. left. right. left.
Qed.

(** C10, amended: whether the completer is registered does not depend on
    the platform, recognised or not, nor on what is typed; with the four
    modules of the script importable it is registered on every platform,
    and before the platform is looked at: the run starts with the same
    calls on every platform, the last of which is [set_completer], and no
    message or key binding comes before it. *)
Theorem completer_unconditional :
  (∀ platform platform' inp inp',
     rl_completer (launched platform inp)
     = rl_completer (launched platform' inp')) ∧
  (forallb available modules = true →
   ∀ platform inp,
     rl_completer (launched platform inp)
       = Some (mkCompleter false (f_globals fr) []) ∧
     (∃ post, trace (launched platform inp) = setup_events fr ++ post) ∧
     last (setup_events fr) = Some (ESetCompleter (f_globals fr)) ∧
     existsb is_binding_event (setup_events fr) = false).
Proof.
  split.
  - intros platform platform' inp inp'. by rewrite !launch_completer.
  - intros Hav platform inp. split_and!; [| | done | done].
    + by rewrite launch_completer, Hav.
    + destruct (launch_trace platform inp Hav) as (evs & Ht & _). eauto.
Qed.

End Launch.

(** *** On the interpreter with every module and [sys] left alone *)

Section Claims.

Context (builtins : dict) (main_ns : loc) (sys_version : string).
Context (compile_command : string → compiled).
Context (h0 : heap) (fr : frame) (g0 l0 : dict).

Local Abbreviation ended :=
  (at_end builtins main_ns sys_version compile_command h0 fr g0 l0).

Lemma at_end_trace platform inp :
  ∃ evs,
    trace (ended platform inp) =
      setup_events fr ++ platform_events platform
      ++ [ENewConsole (f_globals fr); EInteract (f_globals fr)] ++ evs
    ∧ forallb (console_event (f_globals fr)) evs = true.
Proof. by apply launch_trace. Qed.

Lemma at_end_printed platform inp :
  printed (trace (ended platform inp)) = printed (platform_events platform).
Proof.
  destruct (at_end_trace platform inp) as (evs & -> & Hev).
  rewrite !printed_app, (printed_console _ _ Hev). cbn.
  by rewrite !app_nil_r.
Qed.

Lemma at_end_bindings platform inp :
  rl_bindings (ended platform inp) = platform_bindings platform.
Proof.
  by destruct (repl_post builtins main_ns sys_version compile_command
                 h0 fr g0 l0 platform inp) as (evs & _ & Hb & _).
Qed.

(** C1: on a platform whose identifier starts with [linux] the launcher
    prints the Linux message, once, and binds [tab: complete]; on [darwin]
    it prints the Darwin message, once, and binds [bind ^I rl_complete];
    the two cases exclude each other; on any other platform it prints
    neither message and configures no binding.  This holds whatever is
    typed at the prompt afterwards. *)
Theorem platform_dispatch (platform : string) (inp : list input) :
  (startswith platform "linux" = true →
     printed (trace (ended platform inp)) = ["use linux..."] ∧
     rl_bindings (ended platform inp) = ["tab: complete"]) ∧
  (platform = "darwin" →
     printed (trace (ended platform inp)) = ["use darwin..."] ∧
     rl_bindings (ended platform inp) = ["bind ^I rl_complete"]) ∧
  ¬ (startswith platform "linux" = true ∧ platform = "darwin") ∧
  (startswith platform "linux" = false → platform ≠ "darwin" →
     printed (trace (ended platform inp)) = [] ∧
     rl_bindings (ended platform inp) = []).
Proof.
  rewrite at_end_printed, at_end_bindings.
  unfold platform_events, platform_bindings. split_and!.
  - by intros ->.
  - by intros ->.
  - intros [Hl ->]. discriminate Hl.
  - intros -> Hd. by destruct (String.eqb_spec platform "darwin").
Qed.

Lemma at_end_completer platform inp :
  rl_completer (ended platform inp)
  = Some (mkCompleter false (f_globals fr) []).
Proof.
  by destruct (repl_post builtins main_ns sys_version compile_command
                 h0 fr g0 l0 platform inp) as (evs & Hc & _).
Qed.

(** ** The namespace *)

Lemma at_end_nil platform :
  ended platform [] = log (EPrompt ps1) (entered sys_version h0 fr g0 l0 platform).
Proof. unfold at_end. by rewrite repl_run, interact_loop_nil. Qed.

Lemma entered_namespace platform :
  w_heap (entered sys_version h0 fr g0 l0 platform) !! f_globals fr
  = Some (start_namespace fr g0 l0).
Proof. apply lookup_insert_eq. Qed.

Lemma bound_locals_NoDup g : NoDup l0.*1 → NoDup (bound_locals g l0).*1.
Proof. intros H. unfold bound_locals. by do 5 apply dict_set_NoDup. Qed.

Lemma start_namespace_get name :
  NoDup l0.*1 →
  dict_get name (start_namespace fr g0 l0) =
    match dict_get name (bound_locals (f_globals fr) l0) with
    | Some v => Some v
    | None =>
        dict_get name
          (if decide (f_globals fr = f_locals fr)
           then bound_locals (f_globals fr) l0 else g0)
    end.
Proof.
  intros Hnd. unfold start_namespace. case_decide.
  - by destruct (dict_get name _).
  - apply dict_get_merge. by apply bound_locals_NoDup.
Qed.

Lemma exec_in_namespace platform inp source l :
  EExec source l ∈ trace (ended platform inp) → l = f_globals fr.
Proof.
  destruct (at_end_trace platform inp) as (evs & -> & Hev).
  rewrite !elem_of_app. intros [H|[H|[H|H]]].
  - unfold setup_events in H. repeat (apply elem_of_cons in H as [H|H]; [done|]).
    by apply elem_of_nil in H.
  - by apply binding_event_not_exec in H; [|apply platform_events_binding].
  - repeat (apply elem_of_cons in H as [H|H]; [done|]). by apply elem_of_nil in H.
  - by eapply console_event_exec.
Qed.

Lemma bound_locals_get g :
  dict_get "code" (bound_locals g l0) = Some (VModule "code") ∧
  dict_get "readline" (bound_locals g l0) = Some (VModule "readline") ∧
  dict_get "rlcompleter" (bound_locals g l0) = Some (VModule "rlcompleter") ∧
  dict_get "sys" (bound_locals g l0) = Some (VModule "sys") ∧
  dict_get "vs" (bound_locals g l0) = Some (VDict g).
Proof.
  unfold bound_locals.
  split_and!; repeat (rewrite dict_get_set_ne by done); apply dict_get_set_eq.
Qed.

(** C6: when the console starts, the dictionary of the globals holds the
    merge of the global and of the local bindings visible at line 9, a
    local binding winning over a global one of the same name (in a module
    both are one dictionary, [l0] with the imports and [vs] bound); that
    one dictionary is the namespace of the registered completer and the
    scope of every statement the console executes. *)
Theorem namespace_merged (platform : string) :
  NoDup l0.*1 →
  ∃ ns c,
    w_heap (ended platform []) !! f_globals fr = Some ns ∧
    (∀ name,
       dict_get name ns =
         match dict_get name (bound_locals (f_globals fr) l0) with
         | Some v => Some v
         | None =>
             dict_get name
               (if decide (f_globals fr = f_locals fr)
                then bound_locals (f_globals fr) l0 else g0)
         end) ∧
    rl_completer (ended platform []) = Some c ∧
    use_main_ns c = false ∧
    namespace c = f_globals fr ∧
    ENewConsole (f_globals fr) ∈ trace (ended platform []) ∧
    (∀ inp source l,
       EExec source l ∈ trace (ended platform inp) → l = f_globals fr).
Proof.
  intros Hnd. exists (start_namespace fr g0 l0), (mkCompleter false (f_globals fr) []).
  split_and!.
  - rewrite at_end_nil. apply entered_namespace.
  - intros name. by apply start_namespace_get.
  - apply at_end_completer.
  - done.
  - done.
  - destruct (at_end_trace platform []) as (evs & -> & _).
    rewrite !elem_of_app. right. right. left. left.
  - intros inp source l. apply exec_in_namespace.
Qed.

(** C9: the console is given the very dictionary [globals()] returns: no
    dictionary is created on the way, the one at the location of the
    globals holds [code], [readline], [rlcompleter], [sys] and [vs], the
    latter bound to that same location, and every statement the user
    submits is executed in it. *)
Theorem console_namespace_is_globals (platform : string) :
  NoDup l0.*1 →
  ENewConsole (f_globals fr) ∈ trace (ended platform []) ∧
  dom (w_heap (ended platform [])) = dom (w_heap (boot h0 fr g0 l0)) ∧
  (∃ ns,
     w_heap (ended platform []) !! f_globals fr = Some ns ∧
     dict_get "code" ns = Some (VModule "code") ∧
     dict_get "readline" ns = Some (VModule "readline") ∧
     dict_get "rlcompleter" ns = Some (VModule "rlcompleter") ∧
     dict_get "sys" ns = Some (VModule "sys") ∧
     dict_get "vs" ns = Some (VDict (f_globals fr))) ∧
  (∀ inp source l,
     EExec source l ∈ trace (ended platform inp) → l = f_globals fr).
Proof.
  intros Hnd. split_and!.
  - destruct (at_end_trace platform []) as (evs & -> & _).
    rewrite !elem_of_app. right. right. left. left.
  - rewrite at_end_nil. unfold entered, started, configured, boot.
    cbn [log w_heap].
    rewrite !dom_insert_L. apply leibniz_equiv, set_equiv. intros x.
    rewrite !elem_of_union. tauto.
  - exists (start_namespace fr g0 l0).
    destruct (bound_locals_get (f_globals fr)) as (H1 & H2 & H3 & H4 & H5).
    split; [rewrite at_end_nil; apply entered_namespace|].
    rewrite !start_namespace_get by done. by rewrite H1, H2, H3, H4, H5.
  - intros inp source l. apply exec_in_namespace.
Qed.

End Claims.

(** ** Completion *)

Lemma matches_text_startswith text word :
  matches_text text word = startswith word text.
Proof.
  unfold matches_text. revert word.
  induction text as [|c text IH]; intros word.
  - by destruct word.
  - destruct word as [|d word]; [reflexivity|].
    cbn [String.length String.substring startswith String.eqb].
    by rewrite IH.
Qed.

Section Completion.

Context (builtins : dict) (text : string).

(** Items none of whose unseen keys matches add no candidate. *)
Lemma nspace_step_skip (d : dict) : ∀ acc,
  (∀ k, k ∈ d.*1 → matches_text text k = true → mem k acc.2 = true) →
  fold_left (nspace_step text) d acc = acc.
Proof.
  induction d as [|[k v] d IH]; intros acc Hskip; [done|].
  cbn [fold_left]. unfold nspace_step at 2. cbn [fst snd].
  destruct (matches_text text k) eqn:Ek; cbn [andb].
  - rewrite (Hskip k) by (done || left). cbn [negb].
    apply IH. intros k' Hk'. apply Hskip. by right.
  - apply IH. intros k' Hk'. apply Hskip. by right.
Qed.

Lemma mem_cons_eq k l : mem k (k :: l) = true.
Proof. unfold mem. cbn. by rewrite String.eqb_refl. Qed.

(** Items of which only [name] matches add its candidate, once. *)
Lemma nspace_step_one (d : dict) name v : ∀ acc,
  dict_get name d = Some v →
  matches_text text name = true →
  mem name acc.2 = false →
  (∀ k, k ∈ d.*1 → matches_text text k = true → k = name) →
  fold_left (nspace_step text) d acc
  = (acc.1 ++ [callable_postfix v name], name :: acc.2).
Proof.
  induction d as [|[k v'] d IH]; intros acc Hget Hm Hseen Honly; [done|].
  cbn [fold_left]. unfold nspace_step at 2. cbn [fst snd].
  cbn [dict_get] in Hget. destruct (String.eqb_spec name k) as [<-|Hne].
  - injection Hget as ->. rewrite Hm, Hseen. cbn [andb negb].
    apply nspace_step_skip. cbn [snd]. intros k Hk Hmk.
    rewrite (Honly k) by (done || by right). apply mem_cons_eq.
  - destruct (matches_text text k) eqn:Ek.
    + exfalso. apply Hne. symmetry. apply Honly; [left | done].
    + cbn [andb]. apply IH; try done. intros k' Hk'. apply Honly. by right.
Qed.

Lemma keyword_step_skip (kws : list string) : ∀ acc,
  (∀ k, k ∈ kws → matches_text text k = false) →
  fold_left (keyword_step text) kws acc = acc.
Proof.
  induction kws as [|k kws IH]; intros acc Hskip; [done|].
  cbn [fold_left]. unfold keyword_step at 2.
  rewrite (Hskip k) by left. apply IH. intros k' Hk'. apply Hskip. by right.
Qed.

Lemma global_matches_sole (ns : dict) name v :
  dict_get name ns = Some v →
  matches_text text name = true →
  (∀ k, k ∈ ns.*1 → matches_text text k = true → k = name) →
  name ≠ "__builtins__" →
  (∀ k, k ∈ kwlist ++ softkwlist → matches_text text k = false) →
  (∀ k, k ∈ builtins.*1 → matches_text text k = true → k = name) →
  global_matches builtins ns text = [callable_postfix v name].
Proof.
  intros Hget Hm Hns Hnb Hkw Hbi. unfold global_matches.
  rewrite keyword_step_skip by done.
  rewrite (nspace_step_one ns name v) by
    (try done; cbn; destruct (String.eqb_spec name "__builtins__"); done).
  rewrite nspace_step_skip; [done|].
  cbn [snd]. intros k Hk Hmk. rewrite (Hbi k) by done. apply mem_cons_eq.
Qed.

End Completion.

(** C4, as the code has it: the callback offers the keywords, the names of
    the namespace and the builtins that start with the text, a callable
    with an opening parenthesis after its name.  So a partial identifier
    (not blank, without a dot) that starts exactly one name of the
    namespace, other than [__builtins__], and starts no keyword and no
    other builtin, has that name as its sole candidate: the callback
    answers it at state 0 and [None] at state 1; the candidate is the name
    itself when its value is not callable. *)
Theorem completion_sole_candidate
    (builtins : dict) (main_ns : loc)
    (attr_matches : heap → loc → string → list string)
    (self : Completer) (w : world) (ns : dict)
    (text name : string) (v : value) :
  use_main_ns self = false →
  w_heap w !! namespace self = Some ns →
  blank text = false →
  has_dot text = false →
  dict_get name ns = Some v →
  startswith name text = true →
  (∀ k, k ∈ ns.*1 → startswith k text = true → k = name) →
  name ≠ "__builtins__" →
  (∀ k, k ∈ kwlist ++ softkwlist → startswith k text = false) →
  (∀ k, k ∈ builtins.*1 → startswith k text = true → k = name) →
  let self' := mkCompleter false (namespace self) [callable_postfix v name] in
  complete builtins main_ns attr_matches self text 0 w
    = Ok (Some (callable_postfix v name), self') w ∧
  complete builtins main_ns attr_matches self' text 1 w = Ok (None, self') w ∧
  (callable v = false → callable_postfix v name = name).
Proof.
  intros Hmain Hns Hblank Hdot Hget Hstart Honly Hnb Hkw Hbi self'.
  assert (global_matches builtins ns text = [callable_postfix v name]) as Hgm.
  { apply global_matches_sole; try done.
    - by rewrite matches_text_startswith.
    - intros k Hk. rewrite matches_text_startswith. by apply Honly.
    - intros k Hk. rewrite matches_text_startswith. by apply Hkw.
    - intros k Hk. rewrite matches_text_startswith. by apply Hbi. }
  split_and!.
  - unfold complete, compute_matches. rewrite Hmain, Hblank, Hdot.
    unfold mbind, M_bind, get_dict. rewrite Hns, Hgm, ?Hmain. reflexivity.
  - unfold complete. cbn [use_main_ns self']. rewrite Hblank. reflexivity.
  - unfold callable_postfix. by intros ->.
Qed.

(** ** The session *)

Lemma executed_sources_cons_exec source l tl :
  executed_sources (EExec source l :: tl) = source :: executed_sources tl.
Proof. reflexivity. Qed.

Section Effects.

Context (sys_attr : heap → sys_state).
Context (compile_command : string → compiled).

(** What a turn does to the heap and which statement it executes. *)
Lemma turn_effect st i w :
  let r := turn sys_attr compile_command st i w in
  w_heap (final r) =
    match statement_of compile_command st i with
    | Some (_, c) => x_heap (c (locals st.2) (w_heap w))
    | None => w_heap w
    end ∧
  executed_sources (trace (final r)) =
    executed_sources (trace w)
    ++ match statement_of compile_command st i with
       | Some (source, _) => [source]
       | None => []
       end.
Proof.
  cbn zeta.
  unfold statement_of, turn, except_KeyboardInterrupt, push, runsource, runcode,
    showsyntaxerror, showtraceback, show, write, fail, emit, raise,
    mbind, M_bind, mret, M_ret.
  cbn [buffer locals filename].
  repeat (case_match; simplify_eq;
          cbn [final log w_heap trace rl_completer rl_bindings] in *);
    rewrite ?executed_sources_app, ?executed_sources_cons_exec,
      ?executed_sources_map_EStdout;
    cbn [executed_sources omap app]; rewrite ?app_nil_r; done.
Qed.

End Effects.
Section Executions.

Context (sys_attr : heap → sys_state).
Context (compile_command : string → compiled).

(** The statements listed by [executions] are those the loop executes. *)
Lemma executions_sources inp : ∀ st w,
  executed_sources
    (trace (final (interact_while sys_attr compile_command inp st w)))
  = executed_sources (trace w)
    ++ map (λ x, x.1.1) (executions sys_attr compile_command inp st w).
Proof.
  induction inp as [|i rest IH]; intros st w.
  - rewrite interact_while_nil. cbn [executions map].
    destruct (ask_cases sys_attr st.1 w) as [[p ->]|[e ->]];
      cbn [final log trace]; by rewrite executed_sources_app.
  - rewrite interact_while_cons. cbn [executions].
    destruct (ask_cases sys_attr st.1 w) as [[p ->]|[e ->]].
    2:{ cbn [final log trace map]. by rewrite executed_sources_app. }
    destruct (turn_effect sys_attr compile_command st i (log (EPrompt p) w))
      as [_ Hx]. cbn [log trace] in Hx.
    rewrite executed_sources_app in Hx. cbn [executed_sources omap] in Hx.
    rewrite app_nil_r in Hx. rewrite map_app. cbn [log w_heap].
    assert (map (λ x : string * code * heap, x.1.1)
              match statement_of compile_command st i with
              | Some (source, c) => [(source, c, w_heap w)]
              | None => []
              end
            = match statement_of compile_command st i with
              | Some (source, _) => [source]
              | None => []
              end) as ->
      by (by destruct (statement_of compile_command st i) as [[source c]|]).
    rewrite app_assoc, <- Hx.
    destruct (turn sys_attr compile_command st i (log (EPrompt p) w))
      as [[st'|] w1|e w1|w1]; cbn [final map]; rewrite ?app_nil_r; done.
Qed.

(** A property of the heap holds at a statement when it held at the start
    and the statements executed before kept it. *)
Lemma executions_invariant (P : heap → Prop) (ns : loc) inp : ∀ st w k src ck hk,
  locals st.2 = ns →
  P (w_heap w) →
  executions sys_attr compile_command inp st w !! k = Some (src, ck, hk) →
  Forall (λ x : string * code * heap, P x.2 → P (x_heap (x.1.2 ns x.2)))
    (take k (executions sys_attr compile_command inp st w)) →
  P hk.
Proof.
  induction inp as [|i rest IH]; intros st w k src ck hk Hns HP Hk Hkeep.
  { discriminate Hk. }
  cbn [executions] in Hk, Hkeep.
  destruct (ask_cases sys_attr st.1 w) as [[p Hp]|[e Hp]];
    rewrite Hp in Hk, Hkeep; [|discriminate Hk].
  destruct (turn_effect sys_attr compile_command st i (log (EPrompt p) w))
    as [Hh _]. cbn [log w_heap] in Hh.
  destruct (turn_post sys_attr compile_command st i (log (EPrompt p) w))
    as (evs & _ & _ & Hr).
  destruct (statement_of compile_command st i) as [[source c]|].
  - cbn [app] in Hk, Hkeep. destruct k as [|k].
    { injection Hk as <- <- <-. exact HP. }
    cbn [lookup list_lookup take] in Hk, Hkeep.
    apply Forall_cons in Hkeep as [Hc Hkeep]. cbn [fst snd] in Hc.
    destruct (turn sys_attr compile_command st i (log (EPrompt p) w))
      as [[st'|] w1|e w1|w1]; try discriminate Hk.
    cbn [final] in Hh. destruct Hr as [Hloc _].
    apply (IH st' w1 k src ck hk); [congruence | | done | done].
    rewrite Hh, Hns. by apply Hc.
  - cbn [app] in Hk, Hkeep.
    destruct (turn sys_attr compile_command st i (log (EPrompt p) w))
      as [[st'|] w1|e w1|w1]; try discriminate Hk.
    cbn [final] in Hh. destruct Hr as [Hloc _].
    apply (IH st' w1 k src ck hk); [congruence | | done | done].
    by rewrite Hh.
Qed.

End Executions.

Section Statements.

Context (available : string → bool) (sys_attr : heap → sys_state).
Context (builtins : dict) (main_ns : loc) (sys_version : string).
Context (compile_command : string → compiled).

(** An exception that leaves the script shows at the end of the log. *)
Lemma launch_escaped h0 fr g0 l0 platform inp e w :
  launch available sys_attr builtins main_ns sys_version compile_command
    fr platform inp (boot h0 fr g0 l0) = Raise e w →
  escaped e (trace w).
Proof.
  intros Hr. destruct (first_missing available) as [m|] eqn:Hm.
  - destruct (launch_fails available sys_attr builtins main_ns sys_version
                compile_command h0 fr g0 l0 platform inp m Hm)
      as (w' & imported & later & Hr' & _ & _ & Ht & _).
    rewrite Hr in Hr'. injection Hr' as -> ->. rewrite Ht.
    left. by rewrite last_snoc.
  - apply first_missing_None in Hm.
    destruct (launch_post available sys_attr builtins main_ns sys_version
                compile_command h0 fr g0 l0 platform inp Hm)
      as (evs & _ & _ & Ht & _ & _ & _ & Hesc).
    rewrite Hr in Ht, Hesc. cbn [final] in Ht. rewrite Ht.
    by apply escaped_app.
Qed.

(** C2, amended: a statement that raises an exception other than
    [SystemExit], and leaves [sys.stderr] and [sys.excepthook] such that
    the traceback is written, does not end the session.  The loop catches
    the exception and writes its traceback; the heap is the one the
    statement left, nothing else having touched the namespace; the loop
    goes on with the rest of the input; where [sys.ps1] can be read and
    shown the next valid statement is asked for at it and executed in that
    namespace; and whatever is typed, an exception that leaves the script
    is never the error of a statement: it is the [SystemExit] of a
    statement or it was raised outside the statements. *)
Theorem statement_error_contained
    (h0 : heap) (fr : frame) (g0 l0 : dict) (platform : string)
    (st : bool * InteractiveConsole) (w : world)
    (line : string) (c : code) (e : exn) (q : string) :
  let ns := locals st.2 in
  let source := join nl (buffer st.2 ++ [line]) in
  let x := c ns (w_heap w) in
  (if st.1 then sys_ps2 else sys_ps1) (sys_attr (w_heap w)) = Some q →
  sys_input (sys_attr (w_heap w)) = None →
  compile_command source = Code c →
  x_exn x = Some e →
  is_SystemExit e = false →
  displays (sys_attr (x_heap x)) →
  let w' := ran ns source c (log (EPrompt q) w) in
  (∀ rest,
     interact_while sys_attr compile_command (Line line :: rest) st w
     = interact_while sys_attr compile_command rest
         (false, resetbuffer st.2) w') ∧
  trace w' =
    trace w ++ [EPrompt q; EExec source ns]
    ++ map EStdout (x_stdout x) ++ [ERaised e; EWrite (format_exception e)] ∧
  w_heap w' = x_heap x ∧
  (∀ p line2 c2 rest,
     sys_ps1 (sys_attr (x_heap x)) = Some p →
     sys_input (sys_attr (x_heap x)) = None →
     compile_command line2 = Code c2 →
     x_exn (c2 ns (x_heap x)) = None →
     ∃ w2,
       interact_while sys_attr compile_command
         (Line line :: Line line2 :: rest) st w
       = interact_while sys_attr compile_command rest
           (false, resetbuffer st.2) w2 ∧
       w_heap w2 = x_heap (c2 ns (x_heap x)) ∧
       trace w2 =
         trace w' ++ [EPrompt p; EExec line2 ns]
         ++ map EStdout (x_stdout (c2 ns (x_heap x)))) ∧
  (∀ inp e' w'',
     launch available sys_attr builtins main_ns sys_version compile_command
       fr platform inp (boot h0 fr g0 l0) = Raise e' w'' →
     last (trace w'') = Some (EFailed e') ∨
     (last (trace w'') = Some (ERaised e') ∧ is_SystemExit e' = true)).
Proof.
  intros ns source x Hq Hi Hc Hx He Hd w'.
  assert (∀ rest,
            interact_while sys_attr compile_command (Line line :: rest) st w
            = interact_while sys_attr compile_command rest
                (false, resetbuffer st.2) w') as Hgo.
  { intros rest. rewrite interact_while_cons, (ask_shown sys_attr st.1 w q Hq Hi).
    by rewrite (turn_Code_shown sys_attr compile_command st line c _ e). }
  assert (trace w' =
            trace w ++ [EPrompt q; EExec source ns]
            ++ map EStdout (x_stdout x)
            ++ [ERaised e; EWrite (format_exception e)]) as Htr.
  { unfold w', ran. cbn [log trace w_heap]. fold x. rewrite Hx, He.
    by rewrite <- !app_assoc. }
  split_and!; [exact Hgo | exact Htr | reflexivity | |].
  - intros p line2 c2 rest Hp Hi2 Hc2 Hx2.
    exists (ran ns line2 c2 (log (EPrompt p) w')). split_and!.
    + rewrite Hgo, interact_while_cons. cbn [fst].
      rewrite (ask_shown sys_attr false w' p Hp Hi2).
      by rewrite (turn_Code_ok sys_attr compile_command
                    (false, resetbuffer st.2) line2 c2).
    + reflexivity.
    + unfold ran at 1. cbn [log trace w_heap].
      change (w_heap w') with (x_heap x). rewrite Hx2.
      by rewrite app_nil_r, <- !app_assoc.
  - intros inp e' w'' Hr. by apply launch_escaped in Hr.
Qed.

(** C5: a statement that ends normally and leaves [name] bound to [v] in
    the namespace of the console has bound it in the heap itself, at the
    location every statement runs in: the loop goes on with that very
    heap, and each statement it executes afterwards finds [name]
    resolving to [v] there, provided the statements executed in between
    kept the binding ([executions] lists the statements the loop
    executes, with the heap each is executed on). *)
Theorem namespace_persistence
    (st : bool * InteractiveConsole) (w : world)
    (line : string) (c : code) (name : string) (v : value) (q : string) :
  let ns := locals st.2 in
  let source := join nl (buffer st.2 ++ [line]) in
  let x := c ns (w_heap w) in
  (if st.1 then sys_ps2 else sys_ps1) (sys_attr (w_heap w)) = Some q →
  sys_input (sys_attr (w_heap w)) = None →
  compile_command source = Code c →
  x_exn x = None →
  resolves (x_heap x) ns name = Some v →
  let w' := ran ns source c (log (EPrompt q) w) in
  let later := λ rest,
    executions sys_attr compile_command rest (false, resetbuffer st.2) w' in
  (∀ rest,
     interact_while sys_attr compile_command (Line line :: rest) st w
     = interact_while sys_attr compile_command rest
         (false, resetbuffer st.2) w') ∧
  w_heap w' = x_heap x ∧
  resolves (w_heap w') ns name = Some v ∧
  (∀ rest k source' c' h,
     later rest !! k = Some (source', c', h) →
     Forall (λ s : string * code * heap,
               resolves s.2 ns name = Some v →
               resolves (x_heap (s.1.2 ns s.2)) ns name = Some v)
       (take k (later rest)) →
     resolves h ns name = Some v) ∧
  (∀ rest,
     executed_sources
       (trace (final (interact_while sys_attr compile_command rest
                        (false, resetbuffer st.2) w')))
     = executed_sources (trace w') ++ map (λ s, s.1.1) (later rest)).
Proof.
  intros ns source x Hq Hi Hc Hx Hres w' later. split_and!.
  - intros rest. rewrite interact_while_cons, (ask_shown sys_attr st.1 w q Hq Hi).
    by rewrite (turn_Code_ok sys_attr compile_command st line c).
  - reflexivity.
  - exact Hres.
  - intros rest k source' c' h Hk Hkeep.
    by apply (executions_invariant sys_attr compile_command
                (λ h, resolves h ns name = Some v) ns rest
                (false, resetbuffer st.2) w' k source' c' h).
  - intros rest. apply executions_sources.
Qed.

Lemma turn_EOF_ok st w :
  sys_stderr (sys_attr (w_heap w)) = None →
  turn sys_attr compile_command st EOF w
  = Ok None (log (EWrite nl) (log EEOFError w)).
Proof.
  intros Herr. unfold turn, except_KeyboardInterrupt, mbind, M_bind, emit.
  rewrite write_run. cbn [log w_heap]. by rewrite Herr.
Qed.

(** C3, amended: the script has ended exactly when end-of-input has
    arrived at the prompt, or a statement has raised [SystemExit], or an
    exception was raised outside the statements and not caught (by an
    import, the compiler, [input()], a read of [sys.ps1] or a write to
    [sys.stderr]); the last event of the log tells which.  When
    end-of-input arrives while the loop waits and [sys.stderr] can be
    written, the loop shows no further prompt: it writes a newline and the
    exit message and nothing else, whatever follows on the input; the
    script returns and the exit status is 0.  The script returns only on
    end-of-input, and an exception that leaves it was raised outside the
    statements or is the [SystemExit] of a statement, whose argument gives
    the exit status. *)
Theorem loop_termination
    (h0 : heap) (fr : frame) (g0 l0 : dict) (platform : string)
    (inp : list input) :
  let run := λ inp,
    launch available sys_attr builtins main_ns sys_version compile_command
      fr platform inp (boot h0 fr g0 l0) in
  (terminated (run inp) ↔
     EOF ∈ inp ∨
     (∃ e, last (trace (final (run inp))) = Some (ERaised e)
           ∧ is_SystemExit e = true) ∨
     (∃ e, last (trace (final (run inp))) = Some (EFailed e))) ∧
  (∀ post w,
     run inp = Blocked w →
     sys_stderr (sys_attr (w_heap w)) = None →
     ∃ w',
       run (inp ++ EOF :: post) = Ok tt w' ∧
       trace w' = trace w ++ [EEOFError; EWrite nl; EWrite exitmsg] ∧
       w_heap w' = w_heap w ∧
       exit_status (run (inp ++ EOF :: post)) = Some 0%Z) ∧
  (∀ w, run inp = Ok tt w → EOF ∈ inp ∧ exit_status (run inp) = Some 0%Z) ∧
  (∀ e w,
     run inp = Raise e w →
     last (trace w) = Some (EFailed e) ∨
     (last (trace w) = Some (ERaised e) ∧
      ∃ code, e = SystemExit code ∧
              exit_status (run inp) = Some (exit_code code))).
Proof.
  intros run.
  assert (∀ e w, run inp = Raise e w → escaped e (trace w)) as Hesc
    by (intros e w; apply launch_escaped).
  assert (∀ w, run inp = Blocked w →
            forallb available modules = true ∧ (EOF ∉ inp) ∧
            ∃ p, last (trace w) = Some (EPrompt p)) as Hwait.
  { intros w Hr. destruct (first_missing available) as [m|] eqn:Hm.
    - destruct (launch_fails available sys_attr builtins main_ns sys_version
                  compile_command h0 fr g0 l0 platform inp m Hm)
        as (w' & imported & later & Hr' & _).
      unfold run in Hr. rewrite Hr in Hr'. discriminate Hr'.
    - apply first_missing_None in Hm. split; [done|].
      destruct (launch_post available sys_attr builtins main_ns sys_version
                  compile_command h0 fr g0 l0 platform inp Hm)
        as (evs & _ & _ & Ht & _ & _ & _ & Hpost).
      fold (run inp) in Ht, Hpost. rewrite Hr in Ht, Hpost.
      destruct Hpost as (Hn & _ & p & Hlast). split; [done|].
      exists p. cbn [final] in Ht. by rewrite Ht, last_app, Hlast. }
  assert (∀ w, run inp = Ok tt w → EOF ∈ inp) as Hret.
  { intros w Hr. destruct (first_missing available) as [m|] eqn:Hm.
    - destruct (launch_fails available sys_attr builtins main_ns sys_version
                  compile_command h0 fr g0 l0 platform inp m Hm)
        as (w' & imported & later & Hr' & _).
      unfold run in Hr. rewrite Hr in Hr'. discriminate Hr'.
    - apply first_missing_None in Hm.
      destruct (launch_post available sys_attr builtins main_ns sys_version
                  compile_command h0 fr g0 l0 platform inp Hm)
        as (evs & _ & _ & _ & _ & _ & _ & Hpost).
      fold (run inp) in Hpost. rewrite Hr in Hpost. by destruct Hpost. }
  split_and!.
  - destruct (run inp) as [[] w|e w|w] eqn:Hr; cbn [terminated final].
    + split; [|done]. intros _. left. by apply Hret with (w := w).
    + split; [|done]. intros _. right.
      destruct (Hesc e w eq_refl) as [H|[H ?]]; [right | left]; by exists e.
    + destruct (Hwait w eq_refl) as (_ & Hn & p & Hlast). rewrite Hlast.
      split; [done|]. intros [?|[(e & ? & _)|(e & ?)]]; done.
  - intros post w Hr Herr. destruct (Hwait w Hr) as (Hav & _).
    unfold run in *. rewrite launch_run, interact_eq in Hr |- * by done.
    cbn zeta in Hr |- *.
    destruct (sys_stderr (sys_attr (w_heap (log (EInteract (locals (console fr)))
                (log (ENewConsole (f_globals fr))
                   (configured h0 fr g0 l0 platform))))));
      [discriminate Hr|].
    destruct (interact_while sys_attr compile_command inp _ _)
      as [[st'|] w1|e w1|w1] eqn:Hloop; try discriminate Hr;
      [|by destruct (sys_stderr _)|].
    2:{ by apply interact_while_not_Blocked in Hloop. }
    injection Hr as ->.
    rewrite (interact_while_snoc sys_attr compile_command EOF post inp
               _ _ st' w Hloop).
    rewrite (turn_EOF_ok st' w Herr). cbn [log w_heap]. rewrite Herr.
    eexists. split_and!; try reflexivity.
    cbn [log trace]. by rewrite <- !app_assoc.
  - intros w Hr. split; [by apply Hret with (w := w) | by rewrite Hr].
  - intros e w Hr. destruct (Hesc e w Hr) as [H|[H He]]; [by left|].
    right. split; [done|]. rewrite Hr.
    destruct e as [code| |]; try discriminate He. by exists code.
Qed.

End Statements.

(** ** The properties at work on concrete sessions *)

(** Decidable facts about concrete data, by evaluation. *)
Ltac by_decide := refine (bool_decide_unpack _ _); vm_compute; exact I.

(** C4 as stated fails: in the namespace the script starts the console
    with, [co] starts exactly one name, [code], yet the callback does not
    answer [code] at state 0: it answers the keyword [continue] first,
    [code] second and the builtin [compile] third. *)
Lemma completion_offers_keyword :
  let w := final (Demo.run "linux" []) in
  let self := mkCompleter false 0 [] in
  rl_completer w = Some self ∧
  w_heap w !! namespace self = Some Demo.ns ∧
  List.filter (λ k, startswith k "co") Demo.ns.*1 = ["code"] ∧
  complete Demo.builtins 0 Demo.attr_matches self "co" 0 w
    = Ok (Some "continue", mkCompleter false 0 ["continue"; "code"; "compile("]) w ∧
  ¬ (∃ self',
       complete Demo.builtins 0 Demo.attr_matches self "co" 0 w
       = Ok (Some "code", self') w).
Proof.
  split_and!; [by vm_compute.. |].
  intros [self' H]. vm_compute in H. discriminate H.
Qed.

Lemma platform_dispatch_witness :
  let w := at_end Demo.builtins 0 "3.11" Demo.compile_command
             ∅ (module_frame 0) Demo.g0 Demo.g0 "linux2" [Line "x = 5"; EOF] in
  startswith "linux2" "linux" = true ∧
  printed (trace w) = ["use linux..."] ∧
  rl_bindings w = ["tab: complete"].
Proof.
  intros w. split; [reflexivity|].
  apply (platform_dispatch Demo.builtins 0 "3.11" Demo.compile_command
           ∅ (module_frame 0) Demo.g0 Demo.g0 "linux2" [Line "x = 5"; EOF]).
  reflexivity.
Defined.

(** C7 as stated fails where [readline] cannot be imported, as on
    [win32]: line 2 raises [ModuleNotFoundError], which ends the script
    with status 1 before the console is created, let alone entered.  It
    also fails where the interpreter has lost a standard stream: without
    [sys.stderr] the write of the banner raises, without [sys.stdin] the
    banner is written and [input] raises [RuntimeError] before its
    prompt; no prompt is ever shown and nothing is executed. *)
Lemma unsupported_platform_needs_readline :
  let r := Demo.launch_without ["readline"] "win32" [Line "x = 5"] in
  let r' := Demo.launch_without_stream "stderr" "win32" [Line "x = 5"] in
  let r'' := Demo.launch_without_stream "stdin" "win32" [Line "x = 5"] in
  startswith "win32" "linux" = false ∧
  "win32" ≠ "darwin" ∧
  r = Raise (ModuleNotFoundError "readline") (final r) ∧
  trace (final r) =
    [EImport "code"; EImport "readline";
     EFailed (ModuleNotFoundError "readline")] ∧
  existsb is_interact (trace (final r)) = false ∧
  exit_status r = Some 1%Z ∧
  r' = Raise (Error "AttributeError: 'NoneType' object has no attribute 'write'")
         (final r') ∧
  prompts (trace (final r')) = [] ∧
  executed_sources (trace (final r')) = [] ∧
  exit_status r' = Some 1%Z ∧
  r'' = Raise (Error "RuntimeError: input(): lost sys.stdin") (final r'') ∧
  trace (final r'') =
    setup_events (module_frame 0)
    ++ [ENewConsole 0; EInteract 0; EWrite (banner "3.11" "win32");
        EFailed (Error "RuntimeError: input(): lost sys.stdin")] ∧
  prompts (trace (final r'')) = [] ∧
  executed_sources (trace (final r'')) = [] ∧
  exit_status r'' = Some 1%Z.
Proof. split_and!; by vm_compute. Qed.

Lemma unsupported_platform_witness :
  let w := final (Demo.launch_without [] "win32" [Line "x = 5"]) in
  rl_bindings w = [] ∧
  existsb is_binding_event (trace w) = false ∧
  ∃ evs,
    trace w =
      setup_events (module_frame 0)
      ++ [ENewConsole 0; EInteract 0; EWrite (banner "3.11" "win32");
          EPrompt ps1] ++ evs.
Proof.
  intros w.
  destruct (unsupported_platform (λ m, negb (mem m [])) Demo.sys_attr
              Demo.builtins 0 "3.11" Demo.compile_sys
              ∅ (module_frame 0) Demo.g0 Demo.g0 "win32" [Line "x = 5"])
    as (Hb & He & _ & Hp); [reflexivity | reflexivity | discriminate |].
  split_and!; [exact Hb | exact He |].
  apply (Hp ps1); reflexivity.
Defined.

Lemma startup_order_witness :
  let w := final (Demo.launch_without [] "darwin" [Line "x = 5"]) in
  ∃ post,
    trace w =
      [EImport "code"; EImport "readline"; EImport "rlcompleter"; EImport "sys";
       EGlobals; ELocals; EUpdate 0 0; ENewCompleter 0; ESetCompleter 0;
       EPrint "use darwin..."; EParseAndBind "bind ^I rl_complete";
       ENewConsole 0] ++ EInteract 0 :: post ∧
    rl_completer w = Some (mkCompleter false 0 []) ∧
    rl_bindings w = ["bind ^I rl_complete"] ∧
    forallb (console_event 0) post = true.
Proof.
  intros w.
  pose proof (startup_order (λ m, negb (mem m [])) Demo.sys_attr
                Demo.builtins 0 "3.11" Demo.compile_sys
                ∅ (module_frame 0) Demo.g0 Demo.g0 "darwin" [Line "x = 5"])
    as [Hord _].
  eexists.
  assert (trace w =
            [EImport "code"; EImport "readline"; EImport "rlcompleter";
             EImport "sys"; EGlobals; ELocals; EUpdate 0 0; ENewCompleter 0;
             ESetCompleter 0; EPrint "use darwin...";
             EParseAndBind "bind ^I rl_complete"; ENewConsole 0]
            ++ EInteract 0 :: _) as Hcut
    by (vm_compute; reflexivity).
  destruct (Hord _ _ _ Hcut) as (_ & _ & Hc & Hb & Hpost).
  split_and!; [exact Hcut | exact Hc | exact Hb | exact Hpost].
Defined.

(** C10 as stated fails where [readline] cannot be imported, as on
    [win32]: line 2 raises, line 10 is never reached and no completer is
    registered. *)
Lemma completer_needs_readline :
  let r := Demo.launch_without ["readline"] "win32" [] in
  r = Raise (ModuleNotFoundError "readline") (final r) ∧
  rl_completer (final r) = None ∧
  trace (final r) =
    [EImport "code"; EImport "readline";
     EFailed (ModuleNotFoundError "readline")].
Proof. split_and!; by vm_compute. Qed.

Lemma completer_unconditional_witness :
  rl_completer (final (Demo.launch_without [] "win32" [Line "x = 5"]))
  = rl_completer (final (Demo.launch_without [] "linux" [])) ∧
  rl_completer (final (Demo.launch_without [] "win32" [Line "x = 5"]))
  = Some (mkCompleter false 0 []).
Proof.
  destruct (completer_unconditional (λ m, negb (mem m [])) Demo.sys_attr
              Demo.builtins 0 "3.11" Demo.compile_sys
              ∅ (module_frame 0) Demo.g0 Demo.g0) as [Hsame Hreg].
  split.
  - apply (Hsame "win32" "linux" [Line "x = 5"] []).
  - destruct (Hreg eq_refl "win32" [Line "x = 5"]) as (Hc & _). exact Hc.
Defined.

Lemma namespace_merged_witness :
  ∃ ns c,
    w_heap (at_end Demo.builtins 0 "3.11" Demo.compile_command
              ∅ (module_frame 0) Demo.g0 Demo.g0 "linux" [])
      !! 0 = Some ns ∧
    dict_get "vs" ns = Some (VDict 0) ∧
    dict_get "__name__" ns = Some (VStr "__main__") ∧
    rl_completer (at_end Demo.builtins 0 "3.11" Demo.compile_command
                    ∅ (module_frame 0) Demo.g0 Demo.g0 "linux" []) = Some c ∧
    namespace c = 0.
Proof.
  destruct (namespace_merged Demo.builtins 0 "3.11" Demo.compile_command
              ∅ (module_frame 0) Demo.g0 Demo.g0 "linux")
    as (ns & c & Hns & Hget & Hc & _ & Hn & _).
  { by_decide. }
  exists ns, c. split_and!; [exact Hns | | | exact Hc | exact Hn].
  - rewrite Hget. reflexivity.
  - rewrite Hget. reflexivity.
Defined.

Lemma console_namespace_is_globals_witness :
  NoDup Demo.g0.*1 ∧
  ∃ ns,
    w_heap (at_end Demo.builtins 0 "3.11" Demo.compile_command
              ∅ (module_frame 0) Demo.g0 Demo.g0 "darwin" [])
      !! 0 = Some ns ∧
    dict_get "vs" ns = Some (VDict 0).
Proof.
  assert (NoDup Demo.g0.*1) as Hnd
    by by_decide.
  split; [exact Hnd|].
  destruct (console_namespace_is_globals Demo.builtins 0 "3.11"
              Demo.compile_command ∅ (module_frame 0) Demo.g0 Demo.g0
              "darwin" Hnd)
    as (_ & _ & (ns & Hns & _ & _ & _ & _ & Hvs) & _).
  by exists ns.
Defined.

Lemma completion_sole_candidate_witness :
  let w := final (Demo.run "linux" []) in
  let self := mkCompleter false 0 [] in
  complete Demo.builtins 0 Demo.attr_matches self "sy" 0 w
    = Ok (Some "sys", mkCompleter false 0 ["sys"]) w ∧
  complete Demo.builtins 0 Demo.attr_matches (mkCompleter false 0 ["sys"]) "sy" 1 w
    = Ok (None, mkCompleter false 0 ["sys"]) w.
Proof.
  intros w self.
  destruct (completion_sole_candidate Demo.builtins 0 Demo.attr_matches
              self w Demo.ns "sy" "sys" (VModule "sys"))
    as (H0 & H1 & _); try reflexivity.
  - apply (proj1 (Forall_forall
                    (λ k, startswith k "sy" = true → k = "sys") _)).
    by_decide.
  - discriminate.
  - apply (proj1 (Forall_forall (λ k, startswith k "sy" = false) _)).
    by_decide.
  - apply (proj1 (Forall_forall
                    (λ k, startswith k "sy" = true → k = "sys") _)).
    by_decide.
  - split; [exact H0 | exact H1].
Defined.

(** C2 as stated fails for a statement that raises after it has made the
    traceback or the next prompt impossible to show: with
    [sys.stderr = None] the write of the traceback raises
    [AttributeError], with [sys.excepthook = locals] the call of the hook
    raises [TypeError]; with [sys.ps1] deleted the traceback is written
    and the read of the prompt raises [AttributeError], with
    [sys.stdin = None] the traceback is written and [input] raises
    [RuntimeError] before its prompt.  Each time the exception leaves the
    script, with status 1, and the valid statement that follows is not
    executed. *)
Lemma statement_error_ends_session :
  let waiting := trace (final (Demo.launch_without [] "linux" [])) in
  let session := λ source,
    Demo.launch_without [] "linux" [Line source; Line "x = 5"] in
  (∃ w, session "sys.stderr = None; y"
        = Raise (Error "AttributeError: 'NoneType' object has no attribute 'write'") w
      ∧ trace w =
          waiting ++ [EExec "sys.stderr = None; y" 0; ERaised Demo.NameError_y;
                      EFailed (Error "AttributeError: 'NoneType' object has no attribute 'write'")]
      ∧ exit_status (session "sys.stderr = None; y") = Some 1%Z) ∧
  (∃ w, session "sys.excepthook = locals; y"
        = Raise (Error "TypeError: locals() takes no arguments (3 given)") w
      ∧ trace w =
          waiting ++ [EExec "sys.excepthook = locals; y" 0;
                      ERaised Demo.NameError_y; EExcepthook Demo.NameError_y;
                      EFailed (Error "TypeError: locals() takes no arguments (3 given)")]
      ∧ exit_status (session "sys.excepthook = locals; y") = Some 1%Z) ∧
  (∃ w, session "del sys.ps1; y"
        = Raise (Error "AttributeError: module 'sys' has no attribute 'ps1'") w
      ∧ trace w =
          waiting ++ [EExec "del sys.ps1; y" 0; ERaised Demo.NameError_y;
                      EWrite "NameError: name 'y' is not defined";
                      EFailed (Error "AttributeError: module 'sys' has no attribute 'ps1'")]
      ∧ exit_status (session "del sys.ps1; y") = Some 1%Z) ∧
  (∃ w, session "sys.stdin = None; y"
        = Raise (Error "RuntimeError: input(): lost sys.stdin") w
      ∧ trace w =
          waiting ++ [EExec "sys.stdin = None; y" 0; ERaised Demo.NameError_y;
                      EWrite "NameError: name 'y' is not defined";
                      EFailed (Error "RuntimeError: input(): lost sys.stdin")]
      ∧ exit_status (session "sys.stdin = None; y") = Some 1%Z).
Proof. split_and!; eexists; split_and!; by vm_compute. Qed.

Lemma statement_error_contained_witness :
  let st := (false, mkConsole 0 "<console>" []) in
  let w := entered "3.11" ∅ (module_frame 0) Demo.g0 Demo.g0 "linux" in
  let w' := ran 0 "y" (Demo.name_expr "y") (log (EPrompt ps1) w) in
  interact_while Demo.sys_attr Demo.compile_sys [Line "y"; Line "x = 5"] st w
  = interact_while Demo.sys_attr Demo.compile_sys [Line "x = 5"] st w' ∧
  w_heap w' = w_heap w ∧
  trace w' =
    trace w ++ [EPrompt ps1; EExec "y" 0; ERaised Demo.NameError_y;
                EWrite "NameError: name 'y' is not defined"] ∧
  ∃ w2,
    interact_while Demo.sys_attr Demo.compile_sys [Line "y"; Line "x = 5"] st w
    = interact_while Demo.sys_attr Demo.compile_sys [] st w2 ∧
    resolves (w_heap w2) 0 "x" = Some (VInt 5).
Proof.
  intros st w w'.
  destruct (statement_error_contained (λ m, negb (mem m [])) Demo.sys_attr
              Demo.builtins 0 "3.11" Demo.compile_sys
              ∅ (module_frame 0) Demo.g0 Demo.g0 "linux"
              st w "y" (Demo.name_expr "y") Demo.NameError_y ps1)
    as (Hgo & Htr & Hh & Hnext & _);
    [reflexivity | reflexivity | reflexivity | reflexivity | reflexivity
    | by split |].
  destruct (Hnext ps1 "x = 5" (Demo.assign "x" (VInt 5)) [])
    as (w2 & Hrun & Hh2 & _);
    [reflexivity | reflexivity | reflexivity | reflexivity |].
  split_and!; [apply Hgo | exact Hh | exact Htr |].
  exists w2. split; [exact Hrun|]. rewrite Hh2. reflexivity.
Defined.

Lemma namespace_persistence_witness :
  let st := (false, mkConsole 0 "<console>" []) in
  let w := entered "3.11" ∅ (module_frame 0) Demo.g0 Demo.g0 "linux" in
  let w' := ran 0 "x = 5" (Demo.assign "x" (VInt 5)) (log (EPrompt ps1) w) in
  let later := executions sys_intact Demo.compile_command
                 [Line "y"; Line "x"] st w' in
  ∃ h,
    later !! 1%nat = Some ("x", Demo.name_expr "x", h) ∧
    resolves h 0 "x" = Some (VInt 5) ∧
    x_stdout (Demo.name_expr "x" 0 h) = ["5"].
Proof.
  intros st w w' later.
  destruct (namespace_persistence sys_intact Demo.compile_command
              st w "x = 5" (Demo.assign "x" (VInt 5)) "x" (VInt 5) ps1)
    as (_ & _ & _ & Hlater & _);
    [reflexivity | reflexivity | reflexivity | reflexivity | reflexivity |].
  assert (later !! 1%nat = Some ("x", Demo.name_expr "x", w_heap w')) as Hk
    by (vm_compute; reflexivity).
  exists (w_heap w'). split_and!; [exact Hk | | reflexivity].
  apply (Hlater [Line "y"; Line "x"] 1%nat "x" (Demo.name_expr "x") (w_heap w') Hk).
  match goal with
  | |- Forall _ ?l =>
      assert (l = [("y", Demo.name_expr "y", w_heap w')]) as ->
        by (vm_compute; reflexivity)
  end.
  apply Forall_singleton. intros _. reflexivity.
Defined.

(** C3 as stated fails: the script also ends, with status 1, when the
    compiler raises an exception that [runsource] does not catch (a
    source nested too deep: [RecursionError]), when [input()] raises one
    that [interact] does not catch (standard input closed: [ValueError])
    and when the traceback of a statement cannot be written; none of the
    three runs has met end-of-input or a [SystemExit]. *)
Lemma loop_ends_on_uncaught_exception :
  let ended := λ inp,
    let r := Demo.launch_without [] "linux" inp in
    terminated r ∧ exit_status r = Some 1%Z ∧
    forallb (λ i, match i with EOF => false | _ => true end) inp = true ∧
    existsb is_exit (trace (final r)) = false in
  ended [Line Demo.deep; Line "x = 5"] ∧
  ended [Failure (Error "ValueError: I/O operation on closed file")] ∧
  ended [Line "sys.stderr = None; y"; Line "x = 5"].
Proof. split_and!; by vm_compute. Qed.

Lemma loop_termination_witness :
  Demo.launch_without [] "linux" [Line "x = 5"; Line "y"]
    = Blocked (final (Demo.launch_without [] "linux" [Line "x = 5"; Line "y"])) ∧
  ∃ w',
    Demo.launch_without [] "linux" [Line "x = 5"; Line "y"; EOF; Line "x"]
      = Ok tt w' ∧
    trace w' =
      trace (final (Demo.launch_without [] "linux" [Line "x = 5"; Line "y"]))
      ++ [EEOFError; EWrite nl; EWrite exitmsg] ∧
    exit_status
      (Demo.launch_without [] "linux" [Line "x = 5"; Line "y"; EOF; Line "x"])
      = Some 0%Z.
Proof.
  assert (Demo.launch_without [] "linux" [Line "x = 5"; Line "y"]
          = Blocked (final (Demo.launch_without [] "linux" [Line "x = 5"; Line "y"])))
    as Hb by (vm_compute; reflexivity).
  split; [exact Hb|].
  destruct (loop_termination (λ m, negb (mem m [])) Demo.sys_attr
              Demo.builtins 0 "3.11" Demo.compile_sys
              ∅ (module_frame 0) Demo.g0 Demo.g0 "linux"
              [Line "x = 5"; Line "y"])
    as (_ & Heof & _).
  destruct (Heof [Line "x"] _ Hb) as (w' & Hrun & Htr & _ & Hst);
    [vm_compute; reflexivity|].
  exists w'. split_and!; [exact Hrun | exact Htr | exact Hst].
Defined.

(** * Further properties of the code the script runs *)

(** ** The candidates of the completer *)

Lemma startswith_app word suffix text :
  startswith word text = true → startswith (word +:+ suffix) text = true.
Proof.
  revert word. induction text as [|c text IH]; intros word.
  { intros _. by destruct (word +:+ suffix). }
  destruct word as [|d word]; [done|]. simpl.
  intros [Hc Hrest]%andb_prop. by rewrite Hc, (IH _ Hrest).
Qed.

Lemma callable_postfix_startswith v word text :
  startswith word text = true →
  startswith (callable_postfix v word) text = true.
Proof.
  intros H. unfold callable_postfix.
  destruct (callable v); [|done].
  destruct v as [| | | | |[[|n]|]]; repeat apply startswith_app; done.
Qed.

Lemma keyword_step_startswith text acc word :
  Forall (λ cand, startswith cand text = true) acc.1 →
  Forall (λ cand, startswith cand text = true) (keyword_step text acc word).1.
Proof.
  intros Hacc. unfold keyword_step.
  destruct (matches_text text word) eqn:Hm; [|done]. cbn [fst].
  rewrite matches_text_startswith in Hm.
  apply Forall_app. split; [done|]. apply Forall_singleton.
  destruct (mem word _); [by apply startswith_app|].
  destruct (mem word _); [done | by apply startswith_app].
Qed.

Lemma nspace_step_startswith text acc item :
  Forall (λ cand, startswith cand text = true) acc.1 →
  Forall (λ cand, startswith cand text = true) (nspace_step text acc item).1.
Proof.
  intros Hacc. unfold nspace_step.
  destruct (matches_text text item.1) eqn:Hm; [|done].
  destruct (negb _); [|done]. cbn [andb fst].
  rewrite matches_text_startswith in Hm.
  apply Forall_app. split; [done|]. apply Forall_singleton.
  by apply callable_postfix_startswith.
Qed.

Lemma fold_keyword_startswith text kws : ∀ acc,
  Forall (λ cand, startswith cand text = true) acc.1 →
  Forall (λ cand, startswith cand text = true)
    (fold_left (keyword_step text) kws acc).1.
Proof.
  induction kws as [|k kws IH]; intros acc Hacc; [done|].
  cbn [fold_left]. apply IH. by apply keyword_step_startswith.
Qed.

Lemma fold_nspace_startswith text d : ∀ acc,
  Forall (λ cand, startswith cand text = true) acc.1 →
  Forall (λ cand, startswith cand text = true)
    (fold_left (nspace_step text) d acc).1.
Proof.
  induction d as [|item d IH]; intros acc Hacc; [done|].
  cbn [fold_left]. apply IH. by apply nspace_step_startswith.
Qed.

Lemma global_matches_startswith (builtins ns : dict) (text : string) :
  Forall (λ cand, startswith cand text = true) (global_matches builtins ns text).
Proof.
  unfold global_matches.
  do 2 apply fold_nspace_startswith. apply fold_keyword_startswith.
  apply Forall_nil_2.
Qed.

(** What the callback does at state 0 for a text that is not blank and
    has no dot: it reads the namespace and keeps [global_matches] of it. *)
Lemma complete_global builtins main_ns attr_matches self text w r self' w' :
  blank text = false →
  has_dot text = false →
  complete builtins main_ns attr_matches self text 0 w = Ok (r, self') w' →
  ∃ ns,
    w_heap w !! (if use_main_ns self then main_ns else namespace self) = Some ns ∧
    self' = mkCompleter (use_main_ns self)
              (if use_main_ns self then main_ns else namespace self)
              (global_matches builtins ns text) ∧
    r = matches self' !! 0%nat ∧ w' = w.
Proof.
  intros Hblank Hdot. unfold complete, compute_matches.
  rewrite Hblank. destruct (use_main_ns self) eqn:Hmain;
    cbn [use_main_ns namespace matches]; rewrite Hdot, ?Hmain;
    unfold mbind, M_bind, get_dict;
    (destruct (w_heap w !! _) as [ns|]; [|done]);
    intros [= <- <- <-]; by exists ns.
Qed.

(** X1: for a text that is not blank and has no dot, every candidate the
    callback keeps at state 0 starts with the text, and so does whatever
    it answers, at state 0 and at the states after it. *)
Theorem candidates_start_with_text
    (builtins : dict) (main_ns : loc)
    (attr_matches : heap → loc → string → list string)
    (self self' : Completer) (text : string) (w w' : world)
    (r : option string) :
  blank text = false →
  has_dot text = false →
  complete builtins main_ns attr_matches self text 0 w = Ok (r, self') w' →
  Forall (λ cand, startswith cand text = true) (matches self') ∧
  (∀ cand, r = Some cand → startswith cand text = true) ∧
  (∀ state cand self2 w2,
     complete builtins main_ns attr_matches self' text (S state) w'
       = Ok (Some cand, self2) w2 →
     startswith cand text = true).
Proof.
  intros Hblank Hdot Hc.
  destruct (complete_global _ _ _ _ _ _ _ _ _ Hblank Hdot Hc)
    as (ns & Hns & -> & -> & ->).
  cbn [matches].
  pose proof (global_matches_startswith builtins ns text) as Hall.
  split_and!; [exact Hall | |].
  - intros cand Hcand. by eapply (proj1 (Forall_lookup _ _) Hall).
  - intros state cand self2 w2. unfold complete. rewrite Hblank.
    cbn [use_main_ns matches].
    destruct (use_main_ns self); cbn [matches]; unfold mbind, M_bind;
      cbn [mret M_ret matches]; intros [= Hcand _ _];
      by eapply (proj1 (Forall_lookup _ _) Hall).
Qed.

Lemma mem_true word l : mem word l = true ↔ word ∈ l.
Proof.
  unfold mem. induction l as [|x l IH]; cbn [existsb].
  - split; [done | intros H; by apply elem_of_nil in H].
  - rewrite orb_true_iff, IH, elem_of_cons.
    by destruct (String.eqb_spec word x); split; intros [?|?]; auto.
Qed.

(** The steps only add candidates, after those already there. *)
Lemma fold_keyword_grows text kws : ∀ acc,
  ∃ more, (fold_left (keyword_step text) kws acc).1 = acc.1 ++ more.
Proof.
  induction kws as [|k kws IH]; intros acc.
  - exists []. by rewrite app_nil_r.
  - cbn [fold_left]. destruct (IH (keyword_step text acc k)) as [more ->].
    unfold keyword_step. destruct (matches_text text k); [|by exists more].
    cbn [fst]. eexists. by rewrite <- app_assoc.
Qed.

Lemma fold_nspace_grows text d : ∀ acc,
  ∃ more, (fold_left (nspace_step text) d acc).1 = acc.1 ++ more.
Proof.
  induction d as [|item d IH]; intros acc.
  - exists []. by rewrite app_nil_r.
  - cbn [fold_left]. destruct (IH (nspace_step text acc item)) as [more ->].
    unfold nspace_step. destruct (_ && _); [|by exists more].
    cbn [fst]. eexists. by rewrite <- app_assoc.
Qed.

(** The words the loop over the keywords has seen are keywords, or were
    seen before. *)
Lemma fold_keyword_seen text kws word : ∀ acc,
  word ∈ (fold_left (keyword_step text) kws acc).2 →
  word ∈ acc.2 ∨ word ∈ kws.
Proof.
  induction kws as [|k kws IH]; intros acc; cbn [fold_left]; [by left|].
  intros [Hin|Hin]%IH; [|right; by right].
  unfold keyword_step in Hin. destruct (matches_text text k); [|by left].
  cbn [snd] in Hin. apply elem_of_cons in Hin as [->|Hin]; [right; left | by left].
Qed.

(** A matching name of the namespace that was not seen yet gets its
    candidate. *)
Lemma fold_nspace_offers text name v d : ∀ acc,
  dict_get name d = Some v →
  matches_text text name = true →
  name ∉ acc.2 →
  callable_postfix v name ∈ (fold_left (nspace_step text) d acc).1.
Proof.
  induction d as [|[k v'] d IH]; intros acc Hget Hm Hseen; [done|].
  cbn [fold_left]. cbn [dict_get] in Hget.
  destruct (String.eqb_spec name k) as [<-|Hne].
  - injection Hget as ->.
    destruct (fold_nspace_grows text d (nspace_step text acc (name, v)))
      as [more ->].
    unfold nspace_step. cbn [fst snd]. rewrite Hm.
    destruct (mem name acc.2) eqn:Hmem; [by apply mem_true in Hmem|].
    cbn [andb negb fst]. rewrite !elem_of_app, list_elem_of_singleton. auto.
  - apply IH; [done | done |].
    unfold nspace_step. destruct (_ && _); [|done].
    cbn [snd fst]. rewrite not_elem_of_cons. by split.
Qed.

Lemma global_matches_offers
    (builtins ns : dict) (text name : string) (v : value) :
  dict_get name ns = Some v →
  startswith name text = true →
  name ≠ "__builtins__" →
  name ∉ kwlist ++ softkwlist →
  callable_postfix v name ∈ global_matches builtins ns text.
Proof.
  intros Hget Hstart Hnb Hkw. unfold global_matches.
  destruct (fold_nspace_grows text builtins
              (fold_left (nspace_step text) ns
                 (fold_left (keyword_step text) (kwlist ++ softkwlist)
                    ([], ["__builtins__"])))) as [more ->].
  apply elem_of_app. left. apply fold_nspace_offers; [done | |].
  - by rewrite matches_text_startswith.
  - intros [Hin|Hin]%fold_keyword_seen; [|done].
    cbn [snd] in Hin. by apply list_elem_of_singleton in Hin.
Qed.

(** X2: the callback offers the names of the namespace it was created
    for, as the heap holds it when it is called: for a text that is not
    blank and has no dot, a name bound there that starts with the text is
    among the candidates kept at state 0, with its postfix, unless it is
    a keyword or [__builtins__]; the callback answers the first
    candidate. *)
Theorem namespace_names_offered
    (builtins : dict) (main_ns : loc)
    (attr_matches : heap → loc → string → list string)
    (self : Completer) (w : world) (ns : dict)
    (text name : string) (v : value) :
  w_heap w !! (if use_main_ns self then main_ns else namespace self) = Some ns →
  blank text = false →
  has_dot text = false →
  dict_get name ns = Some v →
  startswith name text = true →
  name ≠ "__builtins__" →
  name ∉ kwlist ++ softkwlist →
  ∃ self',
    complete builtins main_ns attr_matches self text 0 w
      = Ok (matches self' !! 0%nat, self') w ∧
    matches self' = global_matches builtins ns text ∧
    callable_postfix v name ∈ matches self'.
Proof.
  intros Hns Hblank Hdot Hget Hstart Hnb Hkw.
  exists (mkCompleter (use_main_ns self)
            (if use_main_ns self then main_ns else namespace self)
            (global_matches builtins ns text)).
  split_and!; [| done | by apply global_matches_offers].
  unfold complete, compute_matches. rewrite Hblank.
  destruct (use_main_ns self) eqn:Hmain;
    cbn [use_main_ns namespace matches]; rewrite Hdot, ?Hmain;
    unfold mbind, M_bind, get_dict; by rewrite Hns.
Qed.

Lemma global_matches_keywords_first (builtins ns : dict) (text : string) :
  ∃ names, global_matches builtins ns text = global_matches [] [] text ++ names.
Proof.
  unfold global_matches.
  generalize (fold_left (keyword_step text) (kwlist ++ softkwlist)
                ([], ["__builtins__"])).
  intros kw. cbn [fold_left].
  destruct (fold_nspace_grows text ns kw) as [more1 H1].
  destruct (fold_nspace_grows text builtins (fold_left (nspace_step text) ns kw))
    as [more2 H2].
  exists (more1 ++ more2). rewrite H2, H1. symmetry. apply app_assoc.
Qed.

(** X3: for a text that is not blank and has no dot, the candidates the
    callback keeps at state 0 begin with those of the keywords, which are
    the same whatever the namespace and the builtins hold; names come
    after. *)
Theorem keywords_offered_first
    (builtins : dict) (main_ns : loc)
    (attr_matches : heap → loc → string → list string)
    (self self' : Completer) (text : string) (w w' : world)
    (r : option string) :
  blank text = false →
  has_dot text = false →
  complete builtins main_ns attr_matches self text 0 w = Ok (r, self') w' →
  ∃ names, matches self' = global_matches [] [] text ++ names.
Proof.
  intros Hblank Hdot Hc.
  destruct (complete_global _ _ _ _ _ _ _ _ _ Hblank Hdot Hc)
    as (ns & Hns & -> & _).
  apply global_matches_keywords_first.
Qed.

Section LiveNamespace.

Context (builtins : dict) (main_ns : loc) (sys_version : string).
Context (compile_command : string → compiled).
Context (attr_matches : heap → loc → string → list string).
Context (h0 : heap) (fr : frame) (g0 l0 : dict).

(** X4: the completer the script registered reads the namespace the
    session has left: after any input, a name then bound in the dictionary
    of the globals and starting with the text (not blank, without a dot)
    is among the candidates the callback computes at state 0, unless it is a
    keyword or [__builtins__]; the callback answers the first candidate. *)
Theorem session_names_completed
    (platform : string) (inp : list input)
    (ns : dict) (text name : string) (v : value) :
  let w := at_end builtins main_ns sys_version compile_command
             h0 fr g0 l0 platform inp in
  w_heap w !! f_globals fr = Some ns →
  blank text = false →
  has_dot text = false →
  dict_get name ns = Some v →
  startswith name text = true →
  name ≠ "__builtins__" →
  name ∉ kwlist ++ softkwlist →
  ∃ c self',
    rl_completer w = Some c ∧
    complete builtins main_ns attr_matches c text 0 w
      = Ok (matches self' !! 0, self') w ∧
    matches self' = global_matches builtins ns text ∧
    callable_postfix v name ∈ matches self'.
Proof.
  intros w Hns Hblank Hdot Hget Hstart Hnb Hkw.
  exists (mkCompleter false (f_globals fr) []),
         (mkCompleter false (f_globals fr) (global_matches builtins ns text)).
  split_and!.
  - apply at_end_completer.
  - unfold complete, compute_matches. cbn [use_main_ns namespace].
    rewrite Hblank, Hdot. unfold mbind, M_bind, get_dict. by rewrite Hns.
  - reflexivity.
  - by apply global_matches_offers.
Qed.

End LiveNamespace.

(** ** Compound statements, syntax errors and interrupts *)

Lemma ran_trace ns source c w :
  trace (ran ns source c w) =
    trace w ++ [EExec source ns]
    ++ map EStdout (x_stdout (c ns (w_heap w)))
    ++ match x_exn (c ns (w_heap w)) with
       | None => []
       | Some e =>
           ERaised e ::
           (if is_SystemExit e then [] else [EWrite (format_exception e)])
       end.
Proof. reflexivity. Qed.

Section Blocks.

Context (compile_command : string → compiled).
Context (ns : loc) (fname : string).

(** Lines that leave the source incomplete pile up in the buffer: the
    first is asked for at the prompt of the state, the others at [ps2]. *)
Lemma pending_lines (rest : list input) (pre : list string) : ∀ b m w,
  (∀ k : nat, (1 ≤ k ≤ length pre)%nat →
        compile_command (join nl (b ++ take k pre)) = Incomplete) →
  interact_loop compile_command (map Line pre ++ rest)
    (m, mkConsole ns fname b) w
  = interact_loop compile_command rest
      (match pre with [] => m | _ => true end, mkConsole ns fname (b ++ pre))
      (mkWorld (w_heap w) (rl_completer w) (rl_bindings w)
         (trace w ++ map EPrompt
                       match pre with
                       | [] => []
                       | _ :: pre' =>
                           (if m then ps2 else ps1) :: repeat ps2 (length pre')
                       end)).
Proof.
  induction pre as [|l pre IH]; intros b m w Hinc.
  - cbn [map app]. rewrite !app_nil_r. by destruct w.
  - cbn [map app]. rewrite interact_loop_cons, turn_Line. cbn zeta.
    cbn [snd buffer locals filename].
    assert (compile_command (join nl (b ++ [l])) = Incomplete) as ->
      by (apply (Hinc 1%nat); cbn [length]; lia).
    rewrite IH.
    2:{ intros k Hk. rewrite <- app_assoc. apply (Hinc (S k)).
        cbn [length]. lia. }
    rewrite <- app_assoc. cbn [app]. f_equal.
    + by destruct pre.
    + cbn [log w_heap rl_completer rl_bindings trace prompt_of fst].
      f_equal. rewrite <- app_assoc. f_equal. cbn [app map]. f_equal.
      by destruct pre.
Qed.

End Blocks.

Section Compound.

Context (compile_command : string → compiled).
Context (ns : loc) (fname : string).

(** The prompts of a block of [n] pending lines and the line after them. *)
Lemma block_prompts (pre : list string) :
  match pre with
  | [] => []
  | _ :: pre' => ps1 :: repeat ps2 (length pre')
  end ++ [if match pre with [] => false | _ => true end then ps2 else ps1]
  = ps1 :: repeat ps2 (length pre).
Proof.
  destruct pre as [|l pre]; [done|]. cbn [app length]. f_equal.
  symmetry. apply (repeat_cons (length pre) ps2).
Qed.

(** X5: lines that leave the source incomplete are kept, and the line
    that completes it makes the console execute the lines joined by
    newlines, once, as one statement; the first line was asked for at
    [ps1], the others at [ps2], and the console is back at [ps1] with an
    empty buffer. *)
Theorem compound_statement_runs_once
    (pre : list string) (last : string) (c : code)
    (rest : list input) (w : world) :
  (∀ k : nat, (1 ≤ k ≤ length pre)%nat →
     compile_command (join nl (take k pre)) = Incomplete) →
  compile_command (join nl (pre ++ [last])) = Code c →
  (∀ status, x_exn (c ns (w_heap w)) ≠ Some (SystemExit status)) →
  ∃ w',
    interact_loop compile_command (map Line (pre ++ [last]) ++ rest)
      (false, mkConsole ns fname []) w
    = interact_loop compile_command rest (false, mkConsole ns fname []) w' ∧
    w_heap w' = x_heap (c ns (w_heap w)) ∧
    executed_sources (trace w')
      = executed_sources (trace w) ++ [join nl (pre ++ [last])] ∧
    prompts (trace w') = prompts (trace w) ++ ps1 :: repeat ps2 (length pre).
Proof.
  intros Hinc Hc Hx.
  rewrite map_app, <- app_assoc.
  rewrite (pending_lines compile_command ns fname _ pre [] false w) by exact Hinc.
  cbn [map app]. rewrite interact_loop_cons.
  set (st := (match pre with [] => false | _ => true end,
              mkConsole ns fname pre)).
  set (w1 := mkWorld _ _ _ _).
  rewrite (turn_Line_Code compile_command st last c
             (log (EPrompt (prompt_of st)) w1)) by done.
  cbn [st snd resetbuffer locals filename buffer].
  eexists. split_and!; [reflexivity | reflexivity | |].
  - rewrite ran_trace. unfold w1. cbn [trace log w_heap].
    rewrite !executed_sources_app, executed_sources_map_EPrompt,
      executed_sources_map_EStdout.
    assert (executed_sources match x_exn (c ns (w_heap w)) with
                             | Some e =>
                                 ERaised e ::
                                 (if is_SystemExit e then []
                                  else [EWrite (format_exception e)])
                             | None => []
                             end = []) as ->
      by (by destruct (x_exn _) as [[status| |diag]|]).
    cbn [executed_sources omap app]. by rewrite !app_nil_r.
  - rewrite ran_trace. unfold w1. cbn [trace log w_heap].
    rewrite !prompts_app, prompts_map_EPrompt, prompts_map_EStdout.
    rewrite <- !app_assoc. f_equal.
    assert (prompts match x_exn (c ns (w_heap w)) with
                    | Some e =>
                        ERaised e ::
                        (if is_SystemExit e then []
                         else [EWrite (format_exception e)])
                    | None => []
                    end = []) as ->
      by (by destruct (x_exn _) as [[status| |diag]|]).
    cbn [prompts omap app prompt_of fst st]. rewrite ?app_nil_r.
    apply block_prompts.
Qed.

End Compound.

Section Abandoned.

Context (compile_command : string → compiled).
Context (ns : loc) (fname : string).

Lemma block_prompt_events (pre : list string) (tail : list event) :
  map EPrompt match pre with
              | [] => []
              | _ :: pre' => ps1 :: repeat ps2 (length pre')
              end
  ++ [EPrompt (if match pre with [] => false | _ => true end
               then ps2 else ps1)] ++ tail
  = map EPrompt (ps1 :: repeat ps2 (length pre)) ++ tail.
Proof.
  rewrite <- (block_prompts pre), map_app, <- app_assoc. reflexivity.
Qed.


(** X7: an interrupt at the prompt drops the lines pending in the buffer:
    nothing is executed, the heap is untouched, and the console is back at
    [ps1] with an empty buffer, so that the next line is compiled on its
    own. *)
Theorem interrupt_drops_block
    (pre : list string) (rest : list input) (w : world) :
  (∀ k : nat, (1 ≤ k ≤ length pre)%nat →
     compile_command (join nl (take k pre)) = Incomplete) →
  ∃ w',
    interact_loop compile_command (map Line pre ++ Interrupt :: rest)
      (false, mkConsole ns fname []) w
    = interact_loop compile_command rest (false, mkConsole ns fname []) w' ∧
    w_heap w' = w_heap w ∧
    executed_sources (trace w') = executed_sources (trace w) ∧
    trace w' =
      trace w ++ map EPrompt (ps1 :: repeat ps2 (length pre))
      ++ [EInterrupt; EWrite (nl +:+ "KeyboardInterrupt" +:+ nl)].
Proof.
  intros Hinc.
  rewrite (pending_lines compile_command ns fname _ pre [] false w) by exact Hinc.
  rewrite interact_loop_cons, turn_Interrupt.
  cbn [snd resetbuffer locals filename app].
  eexists. split_and!; [reflexivity | reflexivity | |].
  - cbn [log trace]. rewrite !executed_sources_app, executed_sources_map_EPrompt.
    cbn. by rewrite !app_nil_r.
  - cbn [log trace]. unfold prompt_of. cbn [fst].
    rewrite <- !app_assoc. f_equal. apply block_prompt_events.
Qed.

End Abandoned.

(** ** The session as a whole *)

Lemma started_quiet h0 fr g0 l0 platform :
  prompts (trace (started h0 fr g0 l0 platform)) = [] ∧
  executed_sources (trace (started h0 fr g0 l0 platform)) = [].
Proof.
  rewrite started_trace. unfold platform_events.
  destruct (startswith platform "linux"); [done|].
  by destruct (String.eqb platform "darwin").
Qed.

Section Exits.

Context (available : string → bool) (sys_attr : heap → sys_state).
Context (builtins : dict) (main_ns : loc) (sys_version : string).
Context (compile_command : string → compiled).
Context (h0 : heap) (fr : frame) (g0 l0 : dict).

Local Abbreviation session platform inp :=
  (launch available sys_attr builtins main_ns sys_version compile_command
     fr platform inp (boot h0 fr g0 l0)).

(** X8: a statement that raises [SystemExit] ends the script then and
    there: the exception is logged and leaves the script, no traceback and
    no exit message is written, whatever follows on the input is not
    read, and the exit status is the one [sys.exit] gives for the
    argument of the exception. *)
Theorem exit_ends_session
    (platform : string) (pre post : list input)
    (st : bool * InteractiveConsole) (w : world)
    (line : string) (c : code) (code : value) :
  forallb available modules = true →
  sys_stderr (sys_attr (w_heap (started h0 fr g0 l0 platform))) = None →
  interact_while sys_attr compile_command pre (false, console fr)
    (entered sys_version h0 fr g0 l0 platform) = Ok (Some st) w →
  compile_command (join nl (buffer st.2 ++ [line])) = Code c →
  x_exn (c (f_globals fr) (w_heap w)) = Some (SystemExit code) →
  ∃ w',
    session platform (pre ++ Line line :: post) = Raise (SystemExit code) w' ∧
    exit_status (session platform (pre ++ Line line :: post))
      = Some (exit_code code) ∧
    w_heap w' = x_heap (c (f_globals fr) (w_heap w)) ∧
    trace w' =
      trace w
      ++ [EExec (join nl (buffer st.2 ++ [line])) (f_globals fr)]
      ++ map EStdout (x_stdout (c (f_globals fr) (w_heap w)))
      ++ [ERaised (SystemExit code)].
Proof.
  intros Hav Herr Hpre Hc Hx.
  pose proof (interact_while_post sys_attr compile_command pre (false, console fr)
                (entered sys_version h0 fr g0 l0 platform)) as (evs & _ & _ & Hst).
  rewrite Hpre in Hst. destruct Hst as (Hloc & _). cbn [console snd locals] in Hloc.
  rewrite launch_run, interact_eq by done. cbn zeta. cbn [console locals].
  change (log (EInteract (f_globals fr))
            (log (ENewConsole (f_globals fr)) (configured h0 fr g0 l0 platform)))
    with (started h0 fr g0 l0 platform).
  rewrite Herr.
  change (log (EWrite (banner sys_version platform)) (started h0 fr g0 l0 platform))
    with (entered sys_version h0 fr g0 l0 platform).
  rewrite (interact_while_snoc sys_attr compile_command (Line line) post pre
             _ _ st w Hpre).
  rewrite (turn_Code_exit sys_attr compile_command st line c w (SystemExit code))
    by (rewrite ?Hloc; done).
  cbn [exit_status]. eexists. split_and!; try reflexivity.
  - cbn [ran w_heap]. by rewrite Hloc.
  - rewrite ran_trace, Hloc, Hx. reflexivity.
Qed.

(** X11: the console writes its prompt before it reads: a run shows at
    most one prompt more than input has arrived, and exactly one more
    when it is left waiting for input. *)
Theorem one_prompt_per_input (platform : string) (inp : list input) :
  (length (prompts (trace (final (session platform inp)))) ≤ S (length inp))%nat ∧
  (∀ w, session platform inp = Blocked w →
        length (prompts (trace w)) = S (length inp)).
Proof.
  destruct (first_missing available) as [m|] eqn:Hm.
  - destruct (launch_fails available sys_attr builtins main_ns sys_version
                compile_command h0 fr g0 l0 platform inp m Hm)
      as (w' & imported & later & -> & _ & _ & Ht & _).
    cbn [final]. rewrite Ht, prompts_app.
    assert (prompts (map EImport (imported ++ [m])) = []) as ->
      by (generalize (imported ++ [m]); intros l; by induction l).
    split; [cbn; lia | done].
  - apply first_missing_None in Hm.
    destruct (launch_post available sys_attr builtins main_ns sys_version
                compile_command h0 fr g0 l0 platform inp Hm)
      as (evs & _ & _ & Ht & _ & _ & Hlen & Hpost).
    destruct (started_quiet h0 fr g0 l0 platform) as [Hq _].
    rewrite Ht, prompts_app, Hq. split; [exact Hlen|].
    intros w Hr. rewrite Hr in Ht, Hpost. cbn [final] in Ht.
    rewrite Ht, prompts_app, Hq. by destruct Hpost as (_ & ? & _).
Qed.

End Exits.

Section Sessions.

Context (builtins : dict) (main_ns : loc) (sys_version : string).
Context (compile_command : string → compiled).
Context (h0 : heap) (fr : frame) (g0 l0 : dict).

Local Abbreviation run platform inp :=
  (repl builtins main_ns sys_version compile_command fr platform inp
     (boot h0 fr g0 l0)).


End Sessions.

(** ** What the start of the script leaves alone *)

Section Startup.

Context (builtins : dict) (main_ns : loc) (sys_version : string).
Context (compile_command : string → compiled).
Context (h0 : heap) (fr : frame) (g0 l0 : dict).



End Startup.

(** ** Where the candidates come from *)

Lemma fold_left_invariant {A B} (P : B → Prop) (step : B → A → B) (l : list A) :
  ∀ acc,
    (∀ acc x, x ∈ l → P acc → P (step acc x)) →
    P acc → P (fold_left step l acc).
Proof.
  induction l as [|x l IH]; intros acc Hstep Hacc; [done|].
  cbn [fold_left]. apply IH.
  - intros acc' y Hy. apply Hstep. by right.
  - apply Hstep; [left | done].
Qed.

Lemma global_matches_known (builtins ns : dict) (text cand : string) :
  cand ∈ global_matches builtins ns text →
  (∃ word, word ∈ kwlist ++ softkwlist ∧
           cand ∈ [word; word +:+ ":"; word +:+ " "]) ∨
  (∃ name v, (name, v) ∈ ns ++ builtins ∧ cand = callable_postfix v name).
Proof.
  set (Q := λ cand : string,
         (∃ word, word ∈ kwlist ++ softkwlist ∧
                  cand ∈ [word; word +:+ ":"; word +:+ " "]) ∨
         (∃ name v, (name, v) ∈ ns ++ builtins ∧ cand = callable_postfix v name)).
  intros Hin. unfold global_matches in Hin.
  eapply (proj1 (Forall_forall Q _)); [|exact Hin].
  apply (fold_left_invariant (λ acc, Forall Q acc.1)).
  { intros acc [name v] Hitem Hacc. unfold nspace_step.
    destruct (_ && _); [|done]. cbn [fst snd].
    apply Forall_app. split; [done|]. apply Forall_singleton.
    right. exists name, v. split; [|done]. apply elem_of_app. by right. }
  apply (fold_left_invariant (λ acc, Forall Q acc.1)).
  { intros acc [name v] Hitem Hacc. unfold nspace_step.
    destruct (_ && _); [|done]. cbn [fst snd].
    apply Forall_app. split; [done|]. apply Forall_singleton.
    right. exists name, v. split; [|done]. apply elem_of_app. by left. }
  apply (fold_left_invariant (λ acc, Forall Q acc.1)).
  { intros acc word Hword Hacc. unfold keyword_step.
    destruct (matches_text text word); [|done]. cbn [fst].
    apply Forall_app. split; [done|]. apply Forall_singleton.
    left. exists word. split; [done|].
    destruct (mem word _); [right; left|].
    destruct (mem word _); [left | right; right; left]. }
  apply Forall_nil_2.
Qed.

(** X14: the callback makes nothing up: for a text that is not blank and
    has no dot, each candidate it keeps at state 0 is a keyword, bare or
    followed by a colon or a space, or the name of an item of the
    namespace, as the heap holds it, or of the builtins, with the postfix
    of its value. *)
Theorem candidates_are_known_names
    (builtins : dict) (main_ns : loc)
    (attr_matches : heap → loc → string → list string)
    (self self' : Completer) (text : string) (w w' : world)
    (r : option string) :
  blank text = false →
  has_dot text = false →
  complete builtins main_ns attr_matches self text 0 w = Ok (r, self') w' →
  ∃ ns,
    w_heap w !! (if use_main_ns self then main_ns else namespace self) = Some ns ∧
    ∀ cand, cand ∈ matches self' →
      (∃ word, word ∈ kwlist ++ softkwlist ∧
               cand ∈ [word; word +:+ ":"; word +:+ " "]) ∨
      (∃ name v, (name, v) ∈ ns ++ builtins ∧ cand = callable_postfix v name).
Proof.
  intros Hblank Hdot Hc.
  destruct (complete_global _ _ _ _ _ _ _ _ _ Hblank Hdot Hc)
    as (ns & Hns & -> & _).
  exists ns. split; [exact Hns|]. intros cand. apply global_matches_known.
Qed.

(** ** These properties on concrete sessions *)

Lemma candidates_start_with_text_witness :
  let w := final (Demo.run "linux" []) in
  complete Demo.builtins 0 Demo.attr_matches (mkCompleter false 0 []) "co" 0 w
    = Ok (Some "continue", mkCompleter false 0 ["continue"; "code"; "compile("]) w ∧
  Forall (λ cand, startswith cand "co" = true) ["continue"; "code"; "compile("].
Proof.
  intros w.
  assert (complete Demo.builtins 0 Demo.attr_matches (mkCompleter false 0 []) "co" 0 w
          = Ok (Some "continue",
                mkCompleter false 0 ["continue"; "code"; "compile("]) w) as Hc
    by (vm_compute; reflexivity).
  split; [exact Hc|].
  apply (candidates_start_with_text Demo.builtins 0 Demo.attr_matches
           _ _ "co" w w _ eq_refl eq_refl Hc).
Defined.

Lemma namespace_names_offered_witness :
  let w := final (Demo.run "linux" []) in
  ∃ self',
    complete Demo.builtins 0 Demo.attr_matches (mkCompleter false 0 []) "v" 0 w
      = Ok (matches self' !! 0%nat, self') w ∧
    "vs" ∈ matches self'.
Proof.
  intros w.
  destruct (namespace_names_offered Demo.builtins 0 Demo.attr_matches
              (mkCompleter false 0 []) w Demo.ns "v" "vs" (VDict 0))
    as (self' & Hc & _ & Hin);
    [reflexivity | reflexivity | reflexivity | reflexivity | reflexivity
    | discriminate | by_decide |].
  exists self'. split; [exact Hc | exact Hin].
Defined.

Lemma keywords_offered_first_witness :
  let w := final (Demo.run "linux" []) in
  global_matches [] [] "co" = ["continue"] ∧
  ∃ names, ["continue"; "code"; "compile("] = global_matches [] [] "co" ++ names.
Proof.
  intros w. split; [reflexivity|].
  apply (keywords_offered_first Demo.builtins 0 Demo.attr_matches
           (mkCompleter false 0 [])
           (mkCompleter false 0 ["continue"; "code"; "compile("])
           "co" w w (Some "continue") eq_refl eq_refl).
  vm_compute. reflexivity.
Defined.

Lemma session_names_completed_witness :
  let w := at_end Demo.builtins 0 "3.11" Demo.compile_command
             ∅ (module_frame 0) Demo.g0 Demo.g0 "linux" [Line "x = 5"] in
  ∃ c self',
    rl_completer w = Some c ∧
    complete Demo.builtins 0 Demo.attr_matches c "x" 0 w
      = Ok (matches self' !! 0, self') w ∧
    "x" ∈ matches self'.
Proof.
  intros w.
  destruct (session_names_completed Demo.builtins 0 "3.11"
              Demo.compile_command Demo.attr_matches
              ∅ (module_frame 0) Demo.g0 Demo.g0 "linux" [Line "x = 5"]
              (Demo.ns ++ [("x", VInt 5)]) "x" "x" (VInt 5))
    as (c & self' & Hc & Hcomp & _ & Hin);
    [reflexivity | reflexivity | reflexivity | reflexivity | reflexivity
    | discriminate | by_decide |].
  exists c, self'. split_and!; [exact Hc | exact Hcomp | exact Hin].
Defined.

Lemma compound_statement_runs_once_witness :
  let w := final (Demo.run "linux" [Line "x = 5"]) in
  ∃ w',
    interact_loop Demo.compile_block
      (map Line (["if x:"] ++ ["  x = 6"]) ++ [Line "x"])
      (false, mkConsole 0 "<console>" []) w
    = interact_loop Demo.compile_block [Line "x"]
        (false, mkConsole 0 "<console>" []) w' ∧
    resolves (w_heap w') 0 "x" = Some (VInt 6) ∧
    prompts (trace w') = prompts (trace w) ++ [ps1; ps2].
Proof.
  intros w.
  destruct (compound_statement_runs_once Demo.compile_block 0 "<console>"
              ["if x:"] "  x = 6" (Demo.assign "x" (VInt 6)) [Line "x"] w)
    as (w' & Hloop & Hheap & _ & Hprompts).
  - intros k Hk. cbn [length] in Hk. assert (k = 1%nat) as -> by lia.
    reflexivity.
  - reflexivity.
  - intros status. vm_compute. discriminate.
  - exists w'. split_and!; [exact Hloop | | exact Hprompts].
    rewrite Hheap. reflexivity.
Defined.


Lemma interrupt_drops_block_witness :
  let w := final (Demo.run "linux" [Line "x = 5"]) in
  ∃ w',
    interact_loop Demo.compile_block
      (map Line ["if x:"] ++ Interrupt :: [Line "x"])
      (false, mkConsole 0 "<console>" []) w
    = interact_loop Demo.compile_block [Line "x"]
        (false, mkConsole 0 "<console>" []) w' ∧
    w_heap w' = w_heap w.
Proof.
  intros w.
  destruct (interrupt_drops_block Demo.compile_block 0 "<console>"
              ["if x:"] [Line "x"] w)
    as (w' & Hloop & Hheap & _).
  - intros k Hk. cbn [length] in Hk. assert (k = 1%nat) as -> by lia.
    reflexivity.
  - exists w'. split; [exact Hloop | exact Hheap].
Defined.

Lemma exit_ends_session_witness :
  exit_status (Demo.launch_without [] "linux"
                 ([Line "x = 5"] ++ Line "raise SystemExit(3)" :: [Line "x"]))
  = Some 3%Z ∧
  exit_code (VInt 256) = 0%Z ∧ exit_code (VInt (-1)) = 255%Z ∧
  exit_code VNone = 0%Z ∧ exit_code (VStr "bye") = 1%Z.
Proof.
  destruct (exit_ends_session (λ m, negb (mem m [])) Demo.sys_attr
              Demo.builtins 0 "3.11" Demo.compile_sys
              ∅ (module_frame 0) Demo.g0 Demo.g0 "linux"
              [Line "x = 5"] [Line "x"]
              (false, mkConsole 0 "<console>" [])
              (final (Demo.launch_without [] "linux" [Line "x = 5"]))
              "raise SystemExit(3)" (Demo.exit 3) (VInt 3))
    as (w' & _ & Hstatus & _);
    [reflexivity | reflexivity | vm_compute; reflexivity | reflexivity
    | reflexivity |].
  split; [exact Hstatus | by vm_compute].
Defined.

Lemma one_prompt_per_input_witness :
  Demo.launch_without [] "linux" [Line "if x:"; Line "?"]
  = Blocked (final (Demo.launch_without [] "linux" [Line "if x:"; Line "?"])) ∧
  prompts (trace (final (Demo.launch_without [] "linux" [Line "if x:"; Line "?"])))
  = [ps1; ps2; ps1] ∧
  length (prompts (trace (final (Demo.launch_without [] "linux"
                                   [Line "if x:"; Line "?"])))) = 3%nat.
Proof.
  assert (Demo.launch_without [] "linux" [Line "if x:"; Line "?"]
          = Blocked (final (Demo.launch_without [] "linux" [Line "if x:"; Line "?"])))
    as Hb by (vm_compute; reflexivity).
  split_and!; [exact Hb | by vm_compute |].
  apply (one_prompt_per_input (λ m, negb (mem m [])) Demo.sys_attr
           Demo.builtins 0 "3.11" Demo.compile_sys
           ∅ (module_frame 0) Demo.g0 Demo.g0 "linux"
           [Line "if x:"; Line "?"]).
  exact Hb.
Defined.



Lemma candidates_are_known_names_witness :
  let w := final (Demo.run "linux" []) in
  ∃ ns,
    w_heap w !! 0 = Some ns ∧
    ((∃ word, word ∈ kwlist ++ softkwlist ∧
              "code" ∈ [word; word +:+ ":"; word +:+ " "]) ∨
     (∃ name v, (name, v) ∈ ns ++ Demo.builtins ∧
                "code" = callable_postfix v name)).
Proof.
  intros w.
  destruct (candidates_are_known_names Demo.builtins 0 Demo.attr_matches
              (mkCompleter false 0 [])
              (mkCompleter false 0 ["continue"; "code"; "compile("])
              "co" w w (Some "continue") eq_refl eq_refl)
    as (ns & Hns & Hknown); [vm_compute; reflexivity|].
  exists ns. split; [exact Hns|]. apply Hknown. by_decide.
Defined.
